(** * Arena Targeting: the game session controller of [src/pages/index.tsx]

    The React component [Home] is embedded as a state machine.

    - The component state ([useState] cells), the two timer refs and the
      browser's timer table form one record, [State].
    - The arrow functions handed to [setInterval] and [setTimeout] are
      defunctionalised into [Callback]; every value such a closure reads
      from the render in which it was created (the [const] bindings
      [gameActive], [settings], [newTarget], [targetId]) is an argument of
      its constructor, so a stale capture stays stale.
    - Handlers attached to the DOM belong to the last committed render,
      [render s]; state updaters ([setX (prev => ...)]) read the current
      state.  One callback or handler runs to completion and its updates
      are committed together before the next one starts.
    - The component stays mounted.  Time is in milliseconds.  A timer
      fires at its due time, timers fire in due order, and [Date.now ()]
      is the clock of the machine.
    - JavaScript numbers are integers ([Z]) for counters, handles and
      times, and exact rationals ([Q]) for pixel coordinates. *)

From Stdlib Require Import ZArith QArith Qround List Bool Lia Lqa.
Import ListNotations.
Open Scope Z_scope.

(* ------------------------------------------------------------------ *)
(** ** Data *)

Inductive Difficulty : Type := easy | medium | hard.

Record Settings : Type := mkSettings {
  targetDuration : Z;
  spawnInterval : Z;
  targetSize : Z
}.

Definition difficultySettings (d : Difficulty) : Settings :=
  match d with
  | easy => mkSettings 2000 1500 80
  | medium => mkSettings 1500 1200 60
  | hard => mkSettings 1000 800 45
  end.

Record Target : Type := mkTarget {
  id : Z;
  x : Q;
  y : Q;
  active : bool;
  hit : bool
}.

(** The closures given to the timer functions. *)
Inductive Callback : Type :=
| GameTick
    (* startGame, the callback of gameTimerRef's setInterval *)
| SpawnTick (settings : Settings) (gameActive_seen : bool)
    (* spawnTargets, the callback of targetTimerRef's setInterval *)
| Expire (newTarget_id : Z) (gameActive_seen : bool)
    (* spawnTargets, the setTimeout of settings.targetDuration *)
| RemoveHit (targetId : Z).
    (* hitTarget, the setTimeout of 200 *)

Record Timer : Type := mkTimer {
  handle : Z;
  due : Z;
  every : option Z;          (* Some p for setInterval, None for setTimeout *)
  callback : Callback
}.

Record State : Type := mkState {
  targets : list Target;
  score : Z;
  misses : Z;
  gameActive : bool;
  timeLeft : Z;
  difficulty : Difficulty;
  gameTimerRef : option Z;     (* gameTimerRef.current *)
  targetTimerRef : option Z;   (* targetTimerRef.current *)
  timers : list Timer;         (* the browser's pending timers *)
  nextHandle : Z;              (* the next handle the browser hands out *)
  now : Z                      (* Date.now () *)
}.

(** What a render binds and its handlers see. *)
Record Render : Type := mkRender {
  r_gameActive : bool;
  r_difficulty : Difficulty;
  r_targets : list Target
}.

Definition render (s : State) : Render :=
  mkRender (gameActive s) (difficulty s) (targets s).

(** What a spawner tick reads from the environment: the arena's bounding
    rectangle (width, height) when [arenaRef.current] is set, and the two
    draws of [Math.random ()]. *)
Record Oracle : Type := mkOracle {
  arenaRect : option (Q * Q);
  rand_x : Q;
  rand_y : Q
}.

(** The component as first mounted, at clock [t0]. *)
Definition initial (t0 : Z) : State :=
  mkState [] 0 0 false 30 medium None None [] 1 t0.

(* ------------------------------------------------------------------ *)
(** ** State setters and the timer functions *)

Definition setTargets (f : list Target -> list Target) (s : State) : State :=
  mkState (f (targets s)) (score s) (misses s) (gameActive s) (timeLeft s)
    (difficulty s) (gameTimerRef s) (targetTimerRef s) (timers s)
    (nextHandle s) (now s).

Definition setScore (f : Z -> Z) (s : State) : State :=
  mkState (targets s) (f (score s)) (misses s) (gameActive s) (timeLeft s)
    (difficulty s) (gameTimerRef s) (targetTimerRef s) (timers s)
    (nextHandle s) (now s).

Definition setMisses (f : Z -> Z) (s : State) : State :=
  mkState (targets s) (score s) (f (misses s)) (gameActive s) (timeLeft s)
    (difficulty s) (gameTimerRef s) (targetTimerRef s) (timers s)
    (nextHandle s) (now s).

Definition setGameActive (b : bool) (s : State) : State :=
  mkState (targets s) (score s) (misses s) b (timeLeft s)
    (difficulty s) (gameTimerRef s) (targetTimerRef s) (timers s)
    (nextHandle s) (now s).

Definition setTimeLeft (f : Z -> Z) (s : State) : State :=
  mkState (targets s) (score s) (misses s) (gameActive s) (f (timeLeft s))
    (difficulty s) (gameTimerRef s) (targetTimerRef s) (timers s)
    (nextHandle s) (now s).

Definition setDifficulty (d : Difficulty) (s : State) : State :=
  mkState (targets s) (score s) (misses s) (gameActive s) (timeLeft s)
    d (gameTimerRef s) (targetTimerRef s) (timers s)
    (nextHandle s) (now s).

Definition set_gameTimerRef (h : Z) (s : State) : State :=
  mkState (targets s) (score s) (misses s) (gameActive s) (timeLeft s)
    (difficulty s) (Some h) (targetTimerRef s) (timers s)
    (nextHandle s) (now s).

Definition set_targetTimerRef (h : Z) (s : State) : State :=
  mkState (targets s) (score s) (misses s) (gameActive s) (timeLeft s)
    (difficulty s) (gameTimerRef s) (Some h) (timers s)
    (nextHandle s) (now s).

Definition set_timers (f : list Timer -> list Timer) (s : State) : State :=
  mkState (targets s) (score s) (misses s) (gameActive s) (timeLeft s)
    (difficulty s) (gameTimerRef s) (targetTimerRef s) (f (timers s))
    (nextHandle s) (now s).

Definition set_now (t : Z) (s : State) : State :=
  mkState (targets s) (score s) (misses s) (gameActive s) (timeLeft s)
    (difficulty s) (gameTimerRef s) (targetTimerRef s) (timers s)
    (nextHandle s) t.

(** [setInterval (cb, p)] and [setTimeout (cb, d)]: a fresh handle, first
    due one delay from now. *)
Definition addTimer (cb : Callback) (delay : Z) (rep : option Z) (s : State)
  : State :=
  mkState (targets s) (score s) (misses s) (gameActive s) (timeLeft s)
    (difficulty s) (gameTimerRef s) (targetTimerRef s)
    (timers s ++ [mkTimer (nextHandle s) (now s + delay) rep cb])
    (nextHandle s + 1) (now s).

Definition setInterval (cb : Callback) (p : Z) (s : State) : Z * State :=
  (nextHandle s, addTimer cb p (Some p) s).

Definition setTimeout (cb : Callback) (d : Z) (s : State) : State :=
  addTimer cb d None s.

Definition other_handle (h : Z) (tm : Timer) : bool := negb (handle tm =? h).

Definition clearInterval (h : Z) (s : State) : State :=
  set_timers (filter (other_handle h)) s.

(** [if (ref.current) clearInterval (ref.current)]; a handle is a positive
    number, so a ref that was set is truthy. *)
Definition clearRef (r : option Z) (s : State) : State :=
  match r with
  | Some h => clearInterval h s
  | None => s
  end.

(* ------------------------------------------------------------------ *)
(** ** The component's functions *)

Definition endGame (s : State) : State :=
  let s := setGameActive false s in
  let s := clearRef (gameTimerRef s) s in
  let s := clearRef (targetTimerRef s) s in
  setTargets (fun _ => []) s.

(** The updater [prev => ...] of the round clock, with the [endGame ()] it
    calls. *)
Definition gameTick (s : State) : State :=
  if timeLeft s <=? 1
  then setTimeLeft (fun _ => 0) (endGame s)
  else setTimeLeft (fun prev => prev - 1) s.

Definition other_id (i : Z) (t : Target) : bool := negb (id t =? i).

Definition newTarget (st : Settings) (w h rx ry : Q) (t : Z) : Target :=
  mkTarget t
    (rx * (w - inject_Z (targetSize st)))%Q
    (ry * (h - inject_Z (targetSize st)))%Q
    true false.

Definition expire (i : Z) (gameActive_seen : bool) (s : State) : State :=
  let s := setTargets (filter (other_id i)) s in
  if gameActive_seen then setMisses (fun m => m + 1) s else s.

Definition spawnTick (st : Settings) (gameActive_seen : bool) (o : Oracle)
    (s : State) : State :=
  match arenaRect o with
  | Some (w, h) =>
      let nt := newTarget st w h (rand_x o) (rand_y o) (now s) in
      let s := setTargets (fun prev => prev ++ [nt]) s in
      setTimeout (Expire (id nt) gameActive_seen) (targetDuration st) s
  | None => s
  end.

Definition removeHit (i : Z) (s : State) : State :=
  setTargets (filter (other_id i)) s.

Definition spawnTargets (r : Render) (s : State) : State :=
  let st := difficultySettings (r_difficulty r) in
  let '(h, s) :=
    setInterval (SpawnTick st (r_gameActive r)) (spawnInterval st) s in
  set_targetTimerRef h s.

Definition startGame (r : Render) (s : State) : State :=
  let s := setScore (fun _ => 0) s in
  let s := setMisses (fun _ => 0) s in
  let s := setTimeLeft (fun _ => 30) s in
  let s := setTargets (fun _ => []) s in
  let s := setGameActive true s in
  let '(h, s) := setInterval GameTick 1000 s in
  let s := set_gameTimerRef h s in
  spawnTargets r s.

Definition mark_hit (i : Z) (t : Target) : Target :=
  if id t =? i then mkTarget (id t) (x t) (y t) (active t) true else t.

Definition hitTarget (targetId : Z) (s : State) : State :=
  let s := setTargets (map (mark_hit targetId)) s in
  let s := setScore (fun sc => sc + 1) s in
  setTimeout (RemoveHit targetId) 200 s.

(** The [onClick] of a target's button; [t] is the element of the rendered
    list the button was made from.  [e.stopPropagation ()] keeps the click
    from the arena. *)
Definition onClickTarget (t : Target) (s : State) : State :=
  if hit t then s else hitTarget (id t) s.

Definition handleArenaClick (r : Render) (s : State) : State :=
  if r_gameActive r then setMisses (fun m => m + 1) s else s.

(* ------------------------------------------------------------------ *)
(** ** The event loop *)

Definition runCallback (cb : Callback) (o : Oracle) (s : State) : State :=
  match cb with
  | GameTick => gameTick s
  | SpawnTick st g => spawnTick st g o s
  | Expire i g => expire i g s
  | RemoveHit i => removeHit i s
  end.

Definition findTimer (h : Z) (s : State) : option Timer :=
  find (fun tm => handle tm =? h) (timers s).

(** No other pending timer is due before [tm]. *)
Definition earliest (tm : Timer) (s : State) : bool :=
  forallb (fun tm' => due tm <=? due tm') (timers s).

(** A fired timeout leaves the table, a fired interval is due again one
    period later. *)
Definition again (tm : Timer) (tm' : Timer) : Timer :=
  if handle tm' =? handle tm
  then match every tm' with
       | Some p => mkTimer (handle tm') (due tm' + p) (every tm') (callback tm')
       | None => tm'
       end
  else tm'.

Definition reschedule (tm : Timer) (s : State) : State :=
  match every tm with
  | Some _ => set_timers (map (again tm)) s
  | None => set_timers (filter (other_handle (handle tm))) s
  end.

(** [Math.random ()] is in [0, 1). *)
Definition unit_draw (r : Q) : bool :=
  Qle_bool 0 r && negb (Qle_bool 1 r).

Definition fire (h : Z) (o : Oracle) (s : State) : option State :=
  match findTimer h s with
  | Some tm =>
      if earliest tm s && unit_draw (rand_x o) && unit_draw (rand_y o)
      then Some (runCallback (callback tm) o
                   (reschedule tm (set_now (due tm) s)))
      else None
  | None => None
  end.

Inductive Event : Type :=
| ClickStart                      (* the START GAME button *)
| ClickDifficulty (d : Difficulty)
| ClickArena                      (* the arena's background *)
| ClickTarget (n : nat)           (* the n-th rendered target button *)
| Wait (t : Z)                    (* the clock reaches t, nothing fires *)
| Fire (h : Z) (o : Oracle).      (* the timer with handle h fires *)

(** One turn of the event loop; [None] when the event cannot happen in [s]:
    the menu is rendered only while no game is active, the arena and its
    targets only while one is, and the clock never passes a pending timer. *)
Definition step (e : Event) (s : State) : option State :=
  match e with
  | ClickStart =>
      if gameActive s then None else Some (startGame (render s) s)
  | ClickDifficulty d =>
      if gameActive s then None else Some (setDifficulty d s)
  | ClickArena =>
      if gameActive s then Some (handleArenaClick (render s) s) else None
  | ClickTarget n =>
      if gameActive s
      then match nth_error (r_targets (render s)) n with
           | Some t => Some (onClickTarget t s)
           | None => None
           end
      else None
  | Wait t =>
      if (now s <=? t) && forallb (fun tm => t <=? due tm) (timers s)
      then Some (set_now t s)
      else None
  | Fire h o => fire h o s
  end.

Fixpoint run (es : list Event) (s : State) : option State :=
  match es with
  | [] => Some s
  | e :: es' =>
      match step e s with
      | Some s' => run es' s'
      | None => None
      end
  end.

(** The states the component can be in. *)
Definition reachable (s : State) : Prop :=
  exists t0 es, run es (initial t0) = Some s.

Definition ids (l : list Target) : list Z := map id l.

(** An arena of 400 by 500 and both draws at 1/2. *)
Definition center : Oracle :=
  mkOracle (Some (400 # 1, 500 # 1)%Q) (1 # 2) (1 # 2).

(** A medium round: the clock ticks at 1000 and 2000, targets appear at
    1200 and 2400. *)
Definition two_spawns : list Event :=
  [ClickStart; Fire 1 center; Fire 2 center; Fire 1 center; Fire 2 center].

(** The first of the pending timers that are due soonest. *)
Fixpoint soonest (l : list Timer) : option Timer :=
  match l with
  | [] => None
  | tm :: l' =>
      match soonest l' with
      | Some tm' => if due tm <=? due tm' then Some tm else Some tm'
      | None => Some tm
      end
  end.

(** The events of letting the next [n] timers fire, each when it is due. *)
Fixpoint elapse (n : nat) (o : Oracle) (s : State) : list Event :=
  match n with
  | O => []
  | S n' =>
      match soonest (timers s) with
      | Some tm =>
          match fire (handle tm) o s with
          | Some s' => Fire (handle tm) o :: elapse n' o s'
          | None => []
          end
      | None => []
      end
  end.

(** A medium round left alone up to its last second: 29 clock ticks, 24
    targets, 23 of them expired; the target made at 28800 is live. *)
Definition last_second : list Event :=
  ClickStart :: elapse 76 center (startGame (render (initial 0)) (initial 0)).

(** The same round played out: the 30th tick ends it at 30000, the expiry
    of the last target is still pending and due at 30300. *)
Definition full_round : list Event := last_second ++ [Fire 1 center].

(** The state a list of events leads to from the first mount at clock 0. *)
Definition state_after (es : list Event) : State :=
  match run es (initial 0) with
  | Some s => s
  | None => initial 0
  end.

(** An arena narrower than a medium target. *)
Definition narrow : Oracle :=
  mkOracle (Some (40 # 1, 500 # 1)%Q) (1 # 2) (1 # 2).

(** The target made at 28800 is tapped at 29900, a tenth of a second before
    the round of [last_second] ends. *)
Definition late_hit : list Event := last_second ++ [Wait 29900; ClickTarget 0].

(** The first button of the live set as a list of events leaves it. *)
Definition first_target (es : list Event) : Target :=
  nth 0 (targets (state_after es)) (mkTarget 0 0 0 false false).

(* ------------------------------------------------------------------ *)
(** ** Invariants of the event loop *)

Definition is_ref (s : State) (h : Z) : Prop :=
  gameTimerRef s = Some h \/ targetTimerRef s = Some h.

(** What holds of a pending timer, by the closure it carries. *)
Definition timer_ok (s : State) (tm : Timer) : Prop :=
  match callback tm with
  | GameTick =>
      gameActive s = true /\ gameTimerRef s = Some (handle tm) /\
      exists p, every tm = Some p /\ 0 < p
  | SpawnTick st g =>
      gameActive s = true /\ targetTimerRef s = Some (handle tm) /\
      g = false /\ every tm = Some (spawnInterval st) /\
      0 < spawnInterval st /\ 0 <= targetDuration st /\
      forall t, In t (targets s) -> id t < due tm
  | Expire i g =>
      g = false /\ i <= now s /\ every tm = None /\ ~ is_ref s (handle tm)
  | RemoveHit i =>
      i <= now s /\ every tm = None /\ ~ is_ref s (handle tm)
  end.

Record Inv (s : State) : Prop := mkInv {
  inv_due : forall tm, In tm (timers s) -> now s <= due tm;
  inv_handle : forall tm, In tm (timers s) -> handle tm < nextHandle s;
  inv_nodup : NoDup (map handle (timers s));
  inv_refs : forall h, is_ref s h -> h < nextHandle s;
  inv_timer : forall tm, In tm (timers s) -> timer_ok s tm;
  inv_idle : gameActive s = false -> targets s = [];
  inv_ids : forall t, In t (targets s) -> id t <= now s;
  inv_clock : gameActive s = true -> 1 <= timeLeft s
}.

Definition is_spawn (cb : Callback) : Prop :=
  match cb with
  | SpawnTick _ _ => True
  | _ => False
  end.

(** The target id an expiry or removal closure holds. *)
Definition closure_id (cb : Callback) : option Z :=
  match cb with
  | Expire i _ => Some i
  | RemoveHit i => Some i
  | _ => None
  end.

(** No target made from now on gets the id [i]: the clock is at [i] or
    later and every spawner is due after [i]. *)
Definition Fresh (i : Z) (s : State) : Prop :=
  i <= now s /\
  forall tm, In tm (timers s) -> is_spawn (callback tm) -> i < due tm.

(** The target [i] has left the live set. *)
Definition Gone (i : Z) (s : State) : Prop :=
  Fresh i s /\ ~ In i (ids (targets s)).



(** A closure that can only filter ids up to [t0] out of the live set. *)
Definition inert (t0 : Z) (cb : Callback) : Prop :=
  match cb with
  | Expire i g => g = false /\ i <= t0
  | RemoveHit i => i <= t0
  | _ => False
  end.

(** Every id held by a pending closure is out of the spawners' reach. *)
Definition Known (s : State) : Prop :=
  forall tm i, In tm (timers s) -> closure_id (callback tm) = Some i ->
               Fresh i s.

(** The timers with a handle below [n] are left over from rounds that
    ended by clock [t0]; everything live is younger than [t0]. *)
Definition Stale (n t0 : Z) (s : State) : Prop :=
  t0 <= now s /\ n <= nextHandle s /\
  (forall t, In t (targets s) -> t0 < id t) /\
  (forall tm, In tm (timers s) ->
     (handle tm < n -> inert t0 (callback tm)) /\
     (n <= handle tm -> is_spawn (callback tm) -> t0 < due tm)).

(** What one turn of the event loop can do to the clock, the timer table
    and the live set: a pending timer keeps its handle and closure and is
    never due earlier; a new timer has a fresh handle, is due later than
    now if it is a spawner, and holds the id of a live target if it is an
    expiry or a removal; a live target keeps its id and a set hit flag; a
    new target takes the due time of a pending spawner as id. *)
Definition Effect (s s' : State) : Prop :=
  now s <= now s' /\ nextHandle s <= nextHandle s' /\
  (forall tm', In tm' (timers s') ->
     (exists a, In a (timers s) /\ handle tm' = handle a /\
                callback tm' = callback a /\ due a <= due tm') \/
     (nextHandle s <= handle tm' /\
      (is_spawn (callback tm') -> now s' < due tm') /\
      (forall i, closure_id (callback tm') = Some i ->
                 In i (ids (targets s'))))) /\
  (forall t', In t' (targets s') ->
     (exists t, In t (targets s) /\ id t' = id t /\
                (hit t = true -> hit t' = true)) \/
     (exists tm, In tm (timers s) /\ is_spawn (callback tm) /\
                 id t' = due tm)).

(* ------------------------------------------------------------------ *)
(** ** The rest of the component *)

(** The cleanup the mount effect returns; React runs it at unmount. *)
Definition cleanup (s : State) : State :=
  let s := clearRef (gameTimerRef s) s in
  clearRef (targetTimerRef s) s.

(** [Math.round]: the nearest integer, a half goes up. *)
Definition Math_round (q : Q) : Z := Qfloor (q + (1 # 2)).

(** The accuracy of the Game Over panel,
    [score > 0 ? Math.round ((score / (score + misses)) * 100) : 0].
    The counters are integers and their sum is exact; [fl] is the rounding
    of the quotient and of the product to a double. *)
Definition accuracy (fl : Q -> Q) (score misses : Z) : Z :=
  if 0 <? score
  then Math_round
         (fl (fl (inject_Z score / inject_Z (score + misses)) * (100 # 1)))%Q
  else 0.

(** The Game Over panel is rendered: [!gameActive] and [score > 0]. *)
Definition gameOverShown (s : State) : bool :=
  negb (gameActive s) && (0 <? score s).

(* ------------------------------------------------------------------ *)
(** ** Counting events, and the invariants of a round *)

Definition is_start (e : Event) : bool :=
  match e with
  | ClickStart => true
  | _ => false
  end.

Definition no_start (es : list Event) : bool :=
  forallb (fun e => negb (is_start e)) es.

(** The taps on the arena's background in a list of events. *)
Fixpoint arena_taps (es : list Event) : Z :=
  match es with
  | [] => 0
  | ClickArena :: es' => arena_taps es' + 1
  | _ :: es' => arena_taps es'
  end.

(** The taps on target buttons in a list of events. *)
Fixpoint target_taps (es : list Event) : Z :=
  match es with
  | [] => 0
  | ClickTarget _ :: es' => target_taps es' + 1
  | _ :: es' => target_taps es'
  end.

(** The settings of the difficulty on display. *)
Definition round_settings (s : State) : Settings :=
  difficultySettings (difficulty s).

(** What the timers and the live set of a state have to do with each
    other: spawners run at the settings on display; a live target has its
    expiry pending, one target duration after it was made, and its removal
    pending when it is marked hit; an active round has its clock and its
    spawner pending. *)
Record Live (s : State) : Prop := mkLive {
  live_settings : forall tm st g,
    In tm (timers s) -> callback tm = SpawnTick st g -> st = round_settings s;
  live_expiry : forall t, In t (targets s) ->
    exists tm, In tm (timers s) /\ callback tm = Expire (id t) false /\
               due tm = id t + targetDuration (round_settings s);
  live_removal : forall t, In t (targets s) -> hit t = true ->
    exists tm, In tm (timers s) /\ callback tm = RemoveHit (id t) /\
               due tm <= now s + 200;
  live_clock : gameActive s = true ->
    exists tm, In tm (timers s) /\ callback tm = GameTick /\
               every tm = Some 1000 /\ due tm <= now s + 1000;
  live_spawner : gameActive s = true ->
    exists tm, In tm (timers s) /\
               callback tm = SpawnTick (round_settings s) false /\
               due tm <= now s + spawnInterval (round_settings s)
}.

(** The round under way ends when the clock reaches [e]: its next tick and
    the seconds left add up to [e]; or no round is under way and the clock
    is at [e] or later. *)
Definition Round (e : Z) (s : State) : Prop :=
  (gameActive s = true /\
   exists tm, In tm (timers s) /\ callback tm = GameTick /\
              every tm = Some 1000 /\ due tm <= now s + 1000 /\
              due tm + 1000 * (timeLeft s - 1) = e) \/
  (gameActive s = false /\ e <= now s).

(* ------------------------------------------------------------------ *)
(** * Theorems *)

Example two_spawns_state :
  option_map (fun s => (ids (targets s), map handle (timers s), now s,
                        timeLeft s, score s, misses s))
    (run two_spawns (initial 0))
  = Some ([1200; 2400], [1; 2; 3; 4], 2400, 28, 0, 0).
Proof. reflexivity. Qed.

(** ** Lists *)

Lemma filter_absorb {A : Type} (f : A -> bool) (l : list A) :
  (forall a, In a l -> f a = true) -> filter f l = l.
Proof.
  induction l as [|a l IH]; intros Hf; simpl; [reflexivity|].
  rewrite (Hf a (or_introl eq_refl)).
  f_equal. apply IH. intros b Hb. apply Hf. right. exact Hb.
Qed.

Lemma filter_twice {A : Type} (f : A -> bool) (l : list A) :
  filter f (filter f l) = filter f l.
Proof.
  apply filter_absorb. intros a Ha. apply filter_In in Ha. tauto.
Qed.

Lemma other_id_spec (i : Z) (t : Target) : other_id i t = true <-> id t <> i.
Proof.
  unfold other_id. rewrite negb_true_iff, Z.eqb_neq. tauto.
Qed.

Lemma other_handle_spec (h : Z) (tm : Timer) :
  other_handle h tm = true <-> handle tm <> h.
Proof.
  unfold other_handle. rewrite negb_true_iff, Z.eqb_neq. tauto.
Qed.

Lemma in_ids (i : Z) (l : list Target) :
  In i (ids l) <-> exists t, In t l /\ id t = i.
Proof.
  unfold ids. rewrite in_map_iff. split; intros (t & H1 & H2); exists t; tauto.
Qed.

Lemma filter_other_id_absent (i : Z) (l : list Target) :
  ~ In i (ids (filter (other_id i) l)).
Proof.
  rewrite in_ids. intros (t & Ht & Hi).
  apply filter_In in Ht. destruct Ht as [_ Ht].
  apply other_id_spec in Ht. contradiction.
Qed.

Lemma filter_other_id_same (i : Z) (l : list Target) :
  ~ In i (ids l) -> filter (other_id i) l = l.
Proof.
  intros Hn. apply filter_absorb. intros t Ht.
  apply other_id_spec. intros Hi. apply Hn. apply in_ids. exists t. tauto.
Qed.

Lemma mark_hit_id (i : Z) (t : Target) : id (mark_hit i t) = id t.
Proof. unfold mark_hit. destruct (id t =? i); reflexivity. Qed.

Lemma mark_hit_hit (i : Z) (t : Target) :
  hit (mark_hit i t) = (id t =? i) || hit t.
Proof. unfold mark_hit. destruct (id t =? i); reflexivity. Qed.

Lemma mark_hit_same (i : Z) (t : Target) :
  (id t = i -> hit t = true) -> mark_hit i t = t.
Proof.
  unfold mark_hit. intros H. destruct (Z.eqb_spec (id t) i) as [E|E].
  - destruct t as [a b c d e]. simpl in *. rewrite (H E). reflexivity.
  - reflexivity.
Qed.

Lemma ids_mark_hit (i : Z) (l : list Target) :
  ids (map (mark_hit i) l) = ids l.
Proof.
  unfold ids. rewrite map_map. apply map_ext. apply mark_hit_id.
Qed.

Lemma map_mark_hit_same (i : Z) (l : list Target) :
  (forall t, In t l -> id t = i -> hit t = true) ->
  map (mark_hit i) l = l.
Proof.
  intros H. rewrite <- (map_id l) at 2. apply map_ext_in.
  intros t Ht. apply mark_hit_same. apply H. exact Ht.
Qed.

(** ** The functions one by one *)

Lemma endGame_fields (s : State) :
  gameActive (endGame s) = false /\ targets (endGame s) = [] /\
  score (endGame s) = score s /\ misses (endGame s) = misses s /\
  timeLeft (endGame s) = timeLeft s /\ now (endGame s) = now s /\
  nextHandle (endGame s) = nextHandle s /\
  gameTimerRef (endGame s) = gameTimerRef s /\
  targetTimerRef (endGame s) = targetTimerRef s /\
  difficulty (endGame s) = difficulty s.
Proof.
  unfold endGame, clearRef, clearInterval.
  destruct s as [tg sc mi ga tl di [g|] [t|] tms nh nw]; simpl; repeat split.
Qed.

Lemma endGame_timers (s : State) (tm : Timer) :
  In tm (timers (endGame s)) <->
  In tm (timers s) /\ ~ is_ref s (handle tm).
Proof.
  unfold endGame, clearRef, clearInterval, is_ref.
  destruct s as [tg sc mi ga tl di [g|] [t|] tms nh nw]; simpl;
    repeat rewrite filter_In; repeat rewrite other_handle_spec;
    intuition congruence.
Qed.


(** ** The invariant holds in every reachable state *)

Lemma timer_ok_mono (s s' : State) (tm : Timer) :
  gameActive s' = gameActive s ->
  gameTimerRef s' = gameTimerRef s ->
  targetTimerRef s' = targetTimerRef s ->
  now s <= now s' ->
  (forall t, In t (targets s') -> In (id t) (ids (targets s))) ->
  timer_ok s tm -> timer_ok s' tm.
Proof.
  intros Hg Hr1 Hr2 Hn Ht. unfold timer_ok, is_ref.
  rewrite Hg, Hr1, Hr2.
  destruct (callback tm) as [|st g|i g|i]; intros H.
  - exact H.
  - destruct H as (H1 & H2 & H3 & H4 & H5 & H6 & H7).
    repeat split; try assumption.
    intros t Hin. apply Ht in Hin. apply in_ids in Hin.
    destruct Hin as (t0 & Hin & Hid). rewrite <- Hid. apply H7. exact Hin.
  - intuition lia.
  - intuition lia.
Qed.

Lemma Inv_initial (t0 : Z) : Inv (initial t0).
Proof.
  constructor; simpl; try tauto; try lia.
  - constructor.
  - intros h [H|H]; discriminate.
Qed.

(** Updates that leave timers, refs, flag and clock alone and keep the ids
    of the live set within those it had. *)
Lemma Inv_targets_shrink (s s' : State) :
  timers s' = timers s -> now s' = now s -> nextHandle s' = nextHandle s ->
  gameTimerRef s' = gameTimerRef s -> targetTimerRef s' = targetTimerRef s ->
  gameActive s' = gameActive s -> timeLeft s' = timeLeft s ->
  (forall t, In t (targets s') -> In (id t) (ids (targets s))) ->
  Inv s -> Inv s'.
Proof.
  intros Ht Hn Hh Hr1 Hr2 Hg Hl Hsub [I1 I2 I3 I4 I5 I6 I7 I8].
  constructor; rewrite ?Ht, ?Hn, ?Hh, ?Hg, ?Hl; try assumption.
  - unfold is_ref. rewrite Hr1, Hr2. exact I4.
  - intros tm Hin. apply (timer_ok_mono s); try assumption; try lia.
    apply I5. exact Hin.
  - intros Hf. specialize (I6 Hf).
    destruct (targets s') as [|t l]; [reflexivity|].
    specialize (Hsub t (or_introl eq_refl)). rewrite I6 in Hsub. destruct Hsub.
  - intros t Hin. apply Hsub in Hin. apply in_ids in Hin.
    destruct Hin as (t0 & Hin & Hid). rewrite <- Hid. apply I7. exact Hin.
Qed.

Lemma ids_self (l : list Target) (t : Target) : In t l -> In (id t) (ids l).
Proof. intros H. apply in_ids. exists t. tauto. Qed.

Lemma Inv_setDifficulty (d : Difficulty) (s : State) :
  Inv s -> Inv (setDifficulty d s).
Proof.
  apply Inv_targets_shrink; try reflexivity. intros t. apply ids_self.
Qed.

Lemma Inv_handleArenaClick (r : Render) (s : State) :
  Inv s -> Inv (handleArenaClick r s).
Proof.
  unfold handleArenaClick. destruct (r_gameActive r); [|tauto].
  apply Inv_targets_shrink; try reflexivity. intros t. apply ids_self.
Qed.

Lemma Inv_removeHit (i : Z) (s : State) : Inv s -> Inv (removeHit i s).
Proof.
  apply Inv_targets_shrink; try reflexivity.
  simpl. intros t Ht. apply filter_In in Ht. apply ids_self. tauto.
Qed.

Lemma Inv_expire (i : Z) (g : bool) (s : State) : Inv s -> Inv (expire i g s).
Proof.
  apply Inv_targets_shrink; try (unfold expire; destruct g; reflexivity).
  unfold expire. intros t Ht.
  assert (H : In t (filter (other_id i) (targets s)))
    by (destruct g; exact Ht).
  apply filter_In in H. apply ids_self. tauto.
Qed.

Lemma Inv_wait (t : Z) (s : State) :
  now s <= t -> (forall tm, In tm (timers s) -> t <= due tm) ->
  Inv s -> Inv (set_now t s).
Proof.
  intros Hn Hd [I1 I2 I3 I4 I5 I6 I7 I8].
  constructor; simpl; try assumption.
  - intros tm Hin. apply (timer_ok_mono s); try reflexivity; simpl.
    + exact Hn.
    + intros t1. apply ids_self.
    + apply I5. exact Hin.
  - intros t1 Hin. specialize (I7 t1 Hin). lia.
Qed.

Lemma NoDup_snoc {A : Type} (l : list A) (a : A) :
  NoDup l -> ~ In a l -> NoDup (l ++ [a]).
Proof.
  induction l as [|b l IH]; simpl; intros Hnd Hn.
  - constructor; [tauto | constructor].
  - inversion Hnd as [|? ? Hb Hl]; subst. constructor.
    + rewrite in_app_iff. simpl. intros [H|[H|[]]]; [tauto|].
      apply Hn. left. symmetry. exact H.
    + apply IH; tauto.
Qed.

Lemma NoDup_handles_filter (f : Timer -> bool) (l : list Timer) :
  NoDup (map handle l) -> NoDup (map handle (filter f l)).
Proof.
  induction l as [|a l IH]; simpl; intros Hnd; [constructor|].
  inversion Hnd as [|? ? Ha Hl]; subst.
  destruct (f a); simpl; [|apply IH; exact Hl].
  constructor; [|apply IH; exact Hl].
  intros Hin. apply Ha. apply in_map_iff in Hin.
  destruct Hin as (b & Hb & Hin). apply filter_In in Hin.
  apply in_map_iff. exists b. tauto.
Qed.

Lemma same_handle_same_timer (l : list Timer) (a b : Timer) :
  NoDup (map handle l) -> In a l -> In b l -> handle a = handle b -> a = b.
Proof.
  induction l as [|c l IH]; simpl; intros Hnd Ha Hb Hh; [destruct Ha|].
  inversion Hnd as [|? ? Hc Hl]; subst.
  destruct Ha as [Ha|Ha], Hb as [Hb|Hb]; subst.
  - reflexivity.
  - exfalso. apply Hc. rewrite Hh. apply in_map. exact Hb.
  - exfalso. apply Hc. rewrite <- Hh. apply in_map. exact Ha.
  - apply IH; assumption.
Qed.

Lemma Inv_setTimeout (cb : Callback) (d : Z) (s : State) :
  0 <= d -> inert (now s) cb -> Inv s -> Inv (setTimeout cb d s).
Proof.
  intros Hd Hcb [I1 I2 I3 I4 I5 I6 I7 I8].
  assert (Hfresh : ~ is_ref s (nextHandle s)).
  { intros H. apply I4 in H. lia. }
  constructor; simpl; try assumption.
  - intros tm Hin. apply in_app_iff in Hin. destruct Hin as [Hin|[Hin|[]]].
    + apply I1. exact Hin.
    + subst tm. simpl. lia.
  - intros tm Hin. apply in_app_iff in Hin. destruct Hin as [Hin|[Hin|[]]].
    + specialize (I2 tm Hin). lia.
    + subst tm. simpl. lia.
  - rewrite map_app. simpl. apply NoDup_snoc; [exact I3|].
    intros Hin. apply in_map_iff in Hin. destruct Hin as (tm & Hh & Hin).
    specialize (I2 tm Hin). lia.
  - intros h Hh. specialize (I4 h Hh). lia.
  - intros tm Hin. apply in_app_iff in Hin. destruct Hin as [Hin|[Hin|[]]].
    + apply (timer_ok_mono s); try reflexivity; simpl; try lia.
      * intros t. apply ids_self.
      * apply I5. exact Hin.
    + subst tm. unfold timer_ok. simpl.
      destruct cb as [|st g|i g|i]; simpl in Hcb; try contradiction;
        intuition.
Qed.

Lemma Inv_hitTarget (i : Z) (s : State) :
  i <= now s -> Inv s -> Inv (hitTarget i s).
Proof.
  intros Hi HI. unfold hitTarget. apply Inv_setTimeout; [lia|exact Hi|].
  revert HI. apply Inv_targets_shrink; try reflexivity.
  simpl. intros t Ht. apply ids_self in Ht. rewrite ids_mark_hit in Ht.
  exact Ht.
Qed.

Lemma Inv_onClickTarget (t : Target) (s : State) :
  In t (targets s) -> Inv s -> Inv (onClickTarget t s).
Proof.
  intros Ht HI. unfold onClickTarget. destruct (hit t); [exact HI|].
  apply Inv_hitTarget; [|exact HI]. apply (inv_ids s HI). exact Ht.
Qed.

Lemma Inv_endGame (s : State) : Inv s -> Inv (endGame s).
Proof.
  intros [I1 I2 I3 I4 I5 I6 I7 I8].
  destruct (endGame_fields s)
    as (Eg & Et & _ & _ & _ & En & Eh & Er1 & Er2 & _).
  assert (Ein := endGame_timers s).
  constructor; rewrite ?Eg, ?Et, ?En, ?Eh; try discriminate.
  - intros tm Hin. apply Ein in Hin. apply I1. tauto.
  - intros tm Hin. apply Ein in Hin. apply I2. tauto.
  - clear - I3. unfold endGame, clearRef, clearInterval.
    destruct s as [tg sc mi ga tl di [g|] [t|] tms nh nw]; simpl in *;
      repeat apply NoDup_handles_filter; exact I3.
  - unfold is_ref. rewrite Er1, Er2. exact I4.
  - intros tm Hin. apply Ein in Hin. destruct Hin as [Hin Hr].
    specialize (I5 tm Hin). unfold timer_ok, is_ref in *.
    rewrite Eg, Et, En, Er1, Er2.
    destruct (callback tm); intuition.
  - reflexivity.
  - intros t [].
Qed.

Lemma Inv_setTimeLeft (f : Z -> Z) (s : State) :
  (gameActive s = true -> 1 <= f (timeLeft s)) ->
  Inv s -> Inv (setTimeLeft f s).
Proof.
  intros Hf [I1 I2 I3 I4 I5 I6 I7 I8]. constructor; assumption.
Qed.

Lemma Inv_gameTick (s : State) : Inv s -> Inv (gameTick s).
Proof.
  intros HI. unfold gameTick. destruct (Z.leb_spec (timeLeft s) 1) as [Hl|Hl].
  - apply Inv_setTimeLeft; [|apply Inv_endGame; exact HI].
    destruct (endGame_fields s) as (Eg & _). rewrite Eg. discriminate.
  - apply Inv_setTimeLeft; [|exact HI]. intros _. lia.
Qed.

Lemma settings_positive (d : Difficulty) :
  0 < spawnInterval (difficultySettings d) /\
  0 <= targetDuration (difficultySettings d) /\
  0 < targetSize (difficultySettings d).
Proof. destruct d; simpl; lia. Qed.

Lemma Inv_startGame (r : Render) (s : State) :
  gameActive s = false -> r_gameActive r = false ->
  Inv s -> Inv (startGame r s).
Proof.
  intros Hg Hr [I1 I2 I3 I4 I5 I6 I7 I8].
  destruct (settings_positive (r_difficulty r)) as (Hp & Hd & _).
  assert (Hold : forall tm, In tm (timers s) ->
            exists i,
              (callback tm = Expire i false \/ callback tm = RemoveHit i)
                      /\ i <= now s /\ every tm = None).
  { intros tm Hin. specialize (I5 tm Hin). unfold timer_ok in I5.
    destruct (callback tm) as [|st g|i g|i].
    - destruct I5 as (H & _). congruence.
    - destruct I5 as (H & _). congruence.
    - destruct I5 as (H1 & H2 & H3 & _). subst g. exists i. tauto.
    - destruct I5 as (H2 & H3 & _). exists i. tauto. }
  constructor; simpl.
  - intros tm Hin. repeat (apply in_app_iff in Hin; destruct Hin as [Hin|Hin]).
    + apply I1. exact Hin.
    + destruct Hin as [Hin|[]]. subst tm. simpl. lia.
    + destruct Hin as [Hin|[]]. subst tm. simpl. lia.
  - intros tm Hin. repeat (apply in_app_iff in Hin; destruct Hin as [Hin|Hin]).
    + specialize (I2 tm Hin). lia.
    + destruct Hin as [Hin|[]]. subst tm. simpl. lia.
    + destruct Hin as [Hin|[]]. subst tm. simpl. lia.
  - repeat rewrite map_app. simpl. apply NoDup_snoc; [apply NoDup_snoc|].
    + exact I3.
    + intros Hin. apply in_map_iff in Hin. destruct Hin as (tm & Hh & Hin).
      specialize (I2 tm Hin). lia.
    + rewrite in_app_iff. simpl. intros [Hin|[Hin|[]]]; [|lia].
      apply in_map_iff in Hin. destruct Hin as (tm & Hh & Hin).
      specialize (I2 tm Hin). lia.
  - unfold is_ref. simpl. intros h [H|H]; inversion H; lia.
  - intros tm Hin. repeat (apply in_app_iff in Hin; destruct Hin as [Hin|Hin]).
    + destruct (Hold tm Hin) as (i & Hcb & Hi & He). specialize (I2 tm Hin).
      unfold timer_ok, is_ref. simpl.
      destruct Hcb as [Hcb|Hcb]; rewrite Hcb; repeat split; try assumption;
        intros [H|H]; inversion H; lia.
    + destruct Hin as [Hin|[]]. subst tm. unfold timer_ok. simpl.
      repeat split. exists 1000. split; [reflexivity|lia].
    + destruct Hin as [Hin|[]]. subst tm. unfold timer_ok. simpl.
      repeat split; try assumption. intros t [].
  - reflexivity.
  - intros t [].
  - intros _. lia.
Qed.

Lemma Inv_spawnTick (st : Settings) (g : bool) (o : Oracle) (s : State) :
  g = false -> 0 <= targetDuration st -> gameActive s = true ->
  (forall tm, In tm (timers s) -> is_spawn (callback tm) -> now s < due tm) ->
  Inv s -> Inv (spawnTick st g o s).
Proof.
  intros Hg Hd Ha Hsp HI. unfold spawnTick.
  destruct (arenaRect o) as [[w h]|]; [|exact HI].
  apply Inv_setTimeout; [exact Hd|simpl; split; [exact Hg|lia]|].
  destruct HI as [I1 I2 I3 I4 I5 I6 I7 I8].
  constructor; simpl; try assumption.
  - intros tm Hin. specialize (I5 tm Hin). specialize (Hsp tm Hin).
    unfold timer_ok in *. simpl.
    destruct (callback tm) as [|st' g'|i g'|i]; try exact I5.
    destruct I5 as (H1 & H2 & H3 & H4 & H5 & H6 & H7).
    repeat split; try assumption.
    intros t Ht. apply in_app_iff in Ht. destruct Ht as [Ht|[Ht|[]]].
    + apply H7. exact Ht.
    + subst t. simpl. apply Hsp. exact I.
  - congruence.
  - intros t Ht. apply in_app_iff in Ht. destruct Ht as [Ht|[Ht|[]]].
    + apply I7. exact Ht.
    + subst t. simpl. lia.
Qed.

Lemma again_same (tm tm' : Timer) :
  handle (again tm tm') = handle tm' /\
  callback (again tm tm') = callback tm' /\
  every (again tm tm') = every tm'.
Proof.
  unfold again. destruct (handle tm' =? handle tm); [|auto].
  destruct (every tm') eqn:E; simpl; auto.
Qed.

Lemma again_due (tm tm' : Timer) :
  (due (again tm tm') = due tm' /\
   (handle tm' <> handle tm \/ every tm' = None)) \/
  (exists p, every tm' = Some p /\ handle tm' = handle tm /\
             due (again tm tm') = due tm' + p).
Proof.
  unfold again. destruct (Z.eqb_spec (handle tm') (handle tm)) as [E|E].
  - destruct (every tm') as [p|].
    + right. exists p. simpl. tauto.
    + left. tauto.
  - left. tauto.
Qed.

Lemma period_positive (s : State) (tm : Timer) (p : Z) :
  timer_ok s tm -> every tm = Some p -> 0 < p.
Proof.
  unfold timer_ok. destruct (callback tm) as [|st g|i g|i]; intros H E.
  - destruct H as (_ & _ & q & Hq & Hp). congruence.
  - destruct H as (_ & _ & _ & Hq & Hp & _). congruence.
  - destruct H as (_ & _ & Hq & _). congruence.
  - destruct H as (_ & Hq & _). congruence.
Qed.

Lemma Inv_filter_timers (f : Timer -> bool) (s : State) :
  Inv s -> Inv (set_timers (filter f) s).
Proof.
  intros [I1 I2 I3 I4 I5 I6 I7 I8]. constructor; simpl; try assumption.
  - intros tm Hin. apply filter_In in Hin. apply I1. tauto.
  - intros tm Hin. apply filter_In in Hin. apply I2. tauto.
  - apply NoDup_handles_filter. exact I3.
  - intros tm Hin. apply filter_In in Hin. destruct Hin as [Hin _].
    apply I5 in Hin. exact Hin.
Qed.

Lemma Inv_again (tm : Timer) (s : State) :
  Inv s -> Inv (set_timers (map (again tm)) s).
Proof.
  intros [I1 I2 I3 I4 I5 I6 I7 I8]. constructor; simpl; try assumption.
  - intros tm' Hin. apply in_map_iff in Hin. destruct Hin as (a & E & Hin).
    subst tm'. specialize (I1 a Hin).
    destruct (again_due tm a) as [[Hd _]|(p & Hp & _ & Hd)]; rewrite Hd.
    + exact I1.
    + assert (0 < p) by (apply (period_positive s a); auto). lia.
  - intros tm' Hin. apply in_map_iff in Hin. destruct Hin as (a & E & Hin).
    subst tm'. destruct (again_same tm a) as (Hh & _). rewrite Hh.
    apply I2. exact Hin.
  - rewrite map_map. rewrite (map_ext _ handle); [exact I3|].
    intros a. apply again_same.
  - intros tm' Hin. apply in_map_iff in Hin. destruct Hin as (a & E & Hin).
    subst tm'. specialize (I5 a Hin).
    destruct (again_same tm a) as (Hh & Hc & He).
    assert (Hle : due a <= due (again tm a)).
    { destruct (again_due tm a) as [[Hd _]|(p & Hp & _ & Hd)]; rewrite Hd.
      - lia.
      - assert (0 < p) by (apply (period_positive s a); auto). lia. }
    unfold timer_ok in *. simpl. rewrite Hh, Hc, He.
    destruct (callback a) as [|st g|i g|i]; try exact I5.
    destruct I5 as (H1 & H2 & H3 & H4 & H5 & H6 & H7).
    repeat split; try assumption.
    intros t Ht. specialize (H7 t Ht). lia.
Qed.

Lemma Inv_reschedule (tm : Timer) (s : State) :
  In tm (timers s) ->
  (forall tm', In tm' (timers s) -> due tm <= due tm') ->
  Inv s -> Inv (reschedule tm (set_now (due tm) s)).
Proof.
  intros Hin He HI.
  assert (H1 : Inv (set_now (due tm) s)).
  { apply Inv_wait; [apply (inv_due s HI); exact Hin|exact He|exact HI]. }
  unfold reschedule. destruct (every tm).
  - apply Inv_again. exact H1.
  - apply Inv_filter_timers. exact H1.
Qed.

Lemma findTimer_some (h : Z) (s : State) (tm : Timer) :
  findTimer h s = Some tm -> In tm (timers s) /\ handle tm = h.
Proof.
  unfold findTimer. intros H. apply find_some in H.
  rewrite Z.eqb_eq in H. exact H.
Qed.

Lemma earliest_spec (tm : Timer) (s : State) :
  earliest tm s = true <-> forall tm', In tm' (timers s) -> due tm <= due tm'.
Proof.
  unfold earliest. rewrite forallb_forall.
  split; intros H tm' Hin; specialize (H tm' Hin);
    [apply Z.leb_le|apply Z.leb_le]; exact H.
Qed.

Lemma reschedule_fields (tm : Timer) (s : State) :
  targets (reschedule tm s) = targets s /\
  score (reschedule tm s) = score s /\
  misses (reschedule tm s) = misses s /\
  gameActive (reschedule tm s) = gameActive s /\
  now (reschedule tm s) = now s /\
  nextHandle (reschedule tm s) = nextHandle s.
Proof. unfold reschedule. destruct (every tm); simpl; repeat split. Qed.

Lemma fired_spawn_next (tm : Timer) (s : State) :
  Inv s -> In tm (timers s) -> is_spawn (callback tm) ->
  (forall tm', In tm' (timers s) -> due tm <= due tm') ->
  forall tm', In tm' (timers (reschedule tm (set_now (due tm) s))) ->
              is_spawn (callback tm') -> due tm < due tm'.
Proof.
  intros HI Hin Hsp He tm' Hin' Hsp'.
  assert (Hk := inv_timer s HI tm Hin).
  unfold reschedule in Hin'.
  unfold timer_ok in Hk. destruct (callback tm) as [|st g|i g|i];
    try contradiction.
  destruct Hk as (_ & Hr & _ & Hev & Hp & _).
  rewrite Hev in Hin'. simpl in Hin'.
  apply in_map_iff in Hin'. destruct Hin' as (a & E & Ha). subst tm'.
  destruct (again_same tm a) as (_ & Hc & _). rewrite Hc in Hsp'.
  assert (Hka := inv_timer s HI a Ha). unfold timer_ok in Hka.
  destruct (callback a) as [|st' g'|i' g'|i']; try contradiction.
  destruct Hka as (_ & Hr' & _ & Hev' & Hp' & _).
  assert (Hh : handle a = handle tm) by congruence.
  specialize (He a Ha).
  unfold again. rewrite Hh, Z.eqb_refl, Hev'. simpl. lia.
Qed.

Lemma Inv_fire (h : Z) (o : Oracle) (s s' : State) :
  Inv s -> fire h o s = Some s' -> Inv s'.
Proof.
  intros HI. unfold fire.
  destruct (findTimer h s) as [tm|] eqn:Ef; [|discriminate].
  destruct (earliest tm s && unit_draw (rand_x o) && unit_draw (rand_y o))
    eqn:Ec; [|discriminate].
  intros E. inversion E. subst s'. clear E.
  apply andb_prop in Ec. destruct Ec as [Ec _].
  apply andb_prop in Ec. destruct Ec as [Ec _].
  rewrite earliest_spec in Ec.
  apply findTimer_some in Ef. destruct Ef as [Hin _].
  assert (H1 := Inv_reschedule tm s Hin Ec HI).
  assert (Hk := inv_timer s HI tm Hin).
  assert (Hnext := fired_spawn_next tm s HI Hin).
  destruct (reschedule_fields tm (set_now (due tm) s))
    as (_ & _ & _ & Hg & Hn & _).
  unfold timer_ok in Hk.
  destruct (callback tm) as [|st g|i g|i]; simpl.
  - apply Inv_gameTick. exact H1.
  - destruct Hk as (Ha & _ & Hgf & _ & _ & Hd & _).
    apply Inv_spawnTick; try assumption.
    + rewrite Hg. exact Ha.
    + rewrite Hn. simpl. intros tm' Hin' Hsp. apply Hnext; simpl; auto.
  - apply Inv_expire. exact H1.
  - apply Inv_removeHit. exact H1.
Qed.

Lemma Inv_step (e : Event) (s s' : State) :
  Inv s -> step e s = Some s' -> Inv s'.
Proof.
  intros HI. destruct e as [|d| |n|t|h o]; simpl.
  - destruct (gameActive s) eqn:Eg; [discriminate|].
    intros E. inversion E. apply Inv_startGame; auto.
  - destruct (gameActive s); [discriminate|].
    intros E. inversion E. apply Inv_setDifficulty. exact HI.
  - destruct (gameActive s); [|discriminate].
    intros E. inversion E. apply Inv_handleArenaClick. exact HI.
  - destruct (gameActive s); [|discriminate].
    destruct (nth_error (targets s) n) as [t|] eqn:En; [|discriminate].
    intros E. inversion E. apply Inv_onClickTarget; [|exact HI].
    apply nth_error_In in En. exact En.
  - destruct (Z.leb_spec (now s) t) as [Hn|Hn]; [|discriminate]. simpl.
    destruct (forallb (fun tm => t <=? due tm) (timers s)) eqn:Ef;
      [|discriminate].
    intros E. inversion E. apply Inv_wait; [exact Hn| |exact HI].
    rewrite forallb_forall in Ef. intros tm Hin.
    apply Z.leb_le. apply Ef. exact Hin.
  - apply Inv_fire. exact HI.
Qed.

Lemma Inv_run (es : list Event) (s s' : State) :
  Inv s -> run es s = Some s' -> Inv s'.
Proof.
  revert s. induction es as [|e es IH]; simpl; intros s HI E.
  - inversion E. subst. exact HI.
  - destruct (step e s) as [s1|] eqn:Es; [|discriminate].
    apply (IH s1); [|exact E]. apply (Inv_step e s); assumption.
Qed.

Lemma Inv_reachable (s : State) : reachable s -> Inv s.
Proof.
  intros (t0 & es & H). apply (Inv_run es (initial t0)); [|exact H].
  apply Inv_initial.
Qed.

Lemma run_app (es1 es2 : list Event) (s : State) :
  run (es1 ++ es2) s
  = match run es1 s with
    | Some s1 => run es2 s1
    | None => None
    end.
Proof.
  revert s. induction es1 as [|e es IH]; simpl; intros s; [reflexivity|].
  destruct (step e s) as [s1|]; [apply IH|reflexivity].
Qed.

Lemma reachable_run (es : list Event) (s s' : State) :
  reachable s -> run es s = Some s' -> reachable s'.
Proof.
  intros (t0 & es0 & H0) H. exists t0, (es0 ++ es).
  rewrite run_app, H0. exact H.
Qed.

(** ** The effect of one turn *)

Lemma Effect_old_timer (s : State) (a : Timer) :
  In a (timers s) ->
  exists b, In b (timers s) /\ handle a = handle b /\
            callback a = callback b /\ due b <= due a.
Proof. intros H. exists a. repeat split; auto. lia. Qed.

Lemma Effect_old_target (s : State) (t : Target) :
  In t (targets s) ->
  exists u, In u (targets s) /\ id t = id u /\ (hit u = true -> hit t = true).
Proof. intros H. exists t. repeat split; auto. Qed.

Lemma Effect_quiet (s s' : State) :
  timers s' = timers s -> targets s' = targets s ->
  now s <= now s' -> nextHandle s' = nextHandle s -> Effect s s'.
Proof.
  intros Ht Hg Hn Hh. unfold Effect. rewrite Ht, Hg, Hh.
  repeat split; try lia.
  - intros tm' Hin. left. apply Effect_old_timer. exact Hin.
  - intros t' Hin. left. apply Effect_old_target. exact Hin.
Qed.

Lemma Effect_startGame (r : Render) (s : State) : Effect s (startGame r s).
Proof.
  destruct (settings_positive (r_difficulty r)) as (Hp & _).
  unfold Effect. simpl. repeat split; try lia.
  - intros tm' Hin.
    repeat (apply in_app_iff in Hin; destruct Hin as [Hin|Hin]).
    + left. apply Effect_old_timer. exact Hin.
    + destruct Hin as [Hin|[]]. subst tm'. right. simpl.
      repeat split; try lia; try tauto. discriminate.
    + destruct Hin as [Hin|[]]. subst tm'. right. simpl.
      repeat split; try lia. discriminate.
Qed.

Lemma Effect_hitTarget (i : Z) (s : State) :
  In i (ids (targets s)) -> Effect s (hitTarget i s).
Proof.
  intros Hi. unfold Effect. simpl. repeat split; try lia.
  - intros tm' Hin. apply in_app_iff in Hin. destruct Hin as [Hin|[Hin|[]]].
    + left. apply Effect_old_timer. exact Hin.
    + subst tm'. right. simpl. repeat split; try lia; try tauto.
      intros j Hj. inversion Hj. subst j. rewrite ids_mark_hit. exact Hi.
  - intros t' Hin. apply in_map_iff in Hin. destruct Hin as (t & E & Hin).
    subst t'. left. exists t. rewrite mark_hit_id, mark_hit_hit.
    repeat split; auto. intros H. rewrite H. apply orb_true_r.
Qed.

Lemma Effect_onClickTarget (t : Target) (s : State) :
  In t (targets s) -> Effect s (onClickTarget t s).
Proof.
  intros Ht. unfold onClickTarget. destruct (hit t).
  - apply Effect_quiet; auto. lia.
  - apply Effect_hitTarget. apply ids_self. exact Ht.
Qed.

Lemma reschedule_timers (tm : Timer) (s : State) (tm' : Timer) :
  (forall a p, In a (timers s) -> every a = Some p -> 0 < p) ->
  In tm' (timers (reschedule tm s)) ->
  exists a, In a (timers s) /\ handle tm' = handle a /\
            callback tm' = callback a /\ due a <= due tm'.
Proof.
  intros Hp. unfold reschedule. destruct (every tm); simpl; intros Hin.
  - apply in_map_iff in Hin. destruct Hin as (a & E & Hin). subst tm'.
    exists a. destruct (again_same tm a) as (Hh & Hc & _).
    repeat split; try assumption.
    destruct (again_due tm a) as [[Hd _]|(p & Hq & _ & Hd)]; rewrite Hd.
    + lia.
    + specialize (Hp a p Hin Hq). lia.
  - apply filter_In in Hin. destruct Hin as [Hin _].
    apply Effect_old_timer. exact Hin.
Qed.

Lemma reschedule_keeps (tm : Timer) (s : State) (a : Timer) :
  In a (timers s) -> handle a <> handle tm -> In a (timers (reschedule tm s)).
Proof.
  intros Hin Hh. unfold reschedule. destruct (every tm); simpl.
  - apply in_map_iff. exists a. split; [|exact Hin].
    unfold again. apply Z.eqb_neq in Hh. rewrite Hh. reflexivity.
  - apply filter_In. split; [exact Hin|]. apply other_handle_spec. exact Hh.
Qed.

Lemma gameTick_shape (s : State) :
  now (gameTick s) = now s /\ nextHandle (gameTick s) = nextHandle s /\
  score (gameTick s) = score s /\ misses (gameTick s) = misses s /\
  (forall tm, In tm (timers (gameTick s)) -> In tm (timers s)) /\
  (forall tm, In tm (timers s) -> ~ is_ref s (handle tm) ->
              In tm (timers (gameTick s))) /\
  (forall t, In t (targets (gameTick s)) -> In t (targets s)).
Proof.
  unfold gameTick. destruct (endGame_fields s)
    as (Eg & Et & Es & Em & _ & En & Eh & _).
  assert (Ein := endGame_timers s).
  destruct (timeLeft s <=? 1); simpl; rewrite ?Et, ?En, ?Eh, ?Es, ?Em;
    repeat split; try tauto.
  - intros tm Hin. apply Ein in Hin. tauto.
  - intros tm Hin Hr. apply Ein. tauto.
Qed.

Lemma spawnTick_shape (st : Settings) (g : bool) (o : Oracle) (s : State) :
  now (spawnTick st g o s) = now s /\
  score (spawnTick st g o s) = score s /\
  misses (spawnTick st g o s) = misses s /\
  nextHandle s <= nextHandle (spawnTick st g o s) /\
  (forall tm, In tm (timers (spawnTick st g o s)) ->
     In tm (timers s) \/
     (handle tm = nextHandle s /\ callback tm = Expire (now s) g /\
      In (now s) (ids (targets (spawnTick st g o s))))) /\
  (forall tm, In tm (timers s) -> In tm (timers (spawnTick st g o s))) /\
  (forall t, In t (targets (spawnTick st g o s)) ->
     In t (targets s) \/ (id t = now s /\ hit t = false)) /\
  (forall t, In t (targets s) -> In t (targets (spawnTick st g o s))).
Proof.
  unfold spawnTick. destruct (arenaRect o) as [[w h]|]; simpl;
    repeat split; try lia; try tauto.
  - intros tm Hin. apply in_app_iff in Hin. destruct Hin as [Hin|[Hin|[]]].
    + tauto.
    + subst tm. simpl. right. repeat split.
      unfold ids. rewrite map_app, in_app_iff. simpl. tauto.
  - intros tm Hin. apply in_app_iff. tauto.
  - intros t Hin. apply in_app_iff in Hin. destruct Hin as [Hin|[Hin|[]]].
    + tauto.
    + subst t. simpl. tauto.
  - intros t Hin. apply in_app_iff. tauto.
Qed.

Lemma expire_shape (i : Z) (g : bool) (s : State) :
  now (expire i g s) = now s /\ nextHandle (expire i g s) = nextHandle s /\
  timers (expire i g s) = timers s /\
  targets (expire i g s) = filter (other_id i) (targets s) /\
  score (expire i g s) = score s /\
  misses (expire i g s) = (if g then misses s + 1 else misses s).
Proof. unfold expire. destruct g; repeat split. Qed.

Lemma pending_periods (s : State) :
  Inv s -> forall a p, In a (timers s) -> every a = Some p -> 0 < p.
Proof.
  intros HI a p Hin He. apply (period_positive s a); [|exact He].
  apply (inv_timer s HI). exact Hin.
Qed.

(** The pieces of a firing: the timer found, alone at the head of the
    queue, and the state its closure starts from. *)
Lemma fire_inv (h : Z) (o : Oracle) (s s' : State) :
  fire h o s = Some s' ->
  exists tm, findTimer h s = Some tm /\ In tm (timers s) /\ handle tm = h /\
             (forall tm', In tm' (timers s) -> due tm <= due tm') /\
             s' = runCallback (callback tm) o
                    (reschedule tm (set_now (due tm) s)).
Proof.
  unfold fire. destruct (findTimer h s) as [tm|] eqn:Ef; [|discriminate].
  destruct (earliest tm s && unit_draw (rand_x o) && unit_draw (rand_y o))
    eqn:Ec; [|discriminate].
  intros E. inversion E. clear E.
  apply andb_prop in Ec. destruct Ec as [Ec _].
  apply andb_prop in Ec. destruct Ec as [Ec _].
  rewrite earliest_spec in Ec.
  destruct (findTimer_some h s tm Ef) as [Hin Hh].
  exists tm. repeat split; auto.
Qed.

Lemma Effect_fire (h : Z) (o : Oracle) (s s' : State) :
  Inv s -> fire h o s = Some s' -> Effect s s'.
Proof.
  intros HI Hf. destruct (fire_inv h o s s' Hf) as (tm & _ & Hin & _ & He & E).
  subst s'. set (s1 := reschedule tm (set_now (due tm) s)).
  assert (Hnow := inv_due s HI tm Hin).
  destruct (reschedule_fields tm (set_now (due tm) s))
    as (Ht & _ & _ & _ & Hn & Hh).
  fold s1 in Ht, Hn, Hh. simpl in Ht, Hn, Hh.
  assert (Hold : forall tm', In tm' (timers s1) ->
            exists a, In a (timers s) /\ handle tm' = handle a /\
                      callback tm' = callback a /\ due a <= due tm').
  { intros tm' Hin'. apply (reschedule_timers tm (set_now (due tm) s));
      [|exact Hin']. simpl. apply pending_periods. exact HI. }
  unfold Effect. destruct (callback tm) as [|st g|i g|i] eqn:Ecb; simpl.
  - destruct (gameTick_shape s1) as (En & Eh & _ & _ & Et & _ & Eg).
    rewrite En, Eh, Hn, Hh. repeat split; try lia.
    + intros tm' Hin'. left. apply Hold. apply Et. exact Hin'.
    + intros t' Hin'. left. apply Effect_old_target. rewrite <- Ht.
      apply Eg. exact Hin'.
  - destruct (spawnTick_shape st g o s1) as (En & _ & _ & Eh & Et & _ & Eg & _).
    rewrite En, Hn. repeat split; try lia.
    + intros tm' Hin'. destruct (Et tm' Hin') as [Ho|(Hh' & Hc' & Hl)].
      * left. apply Hold. exact Ho.
      * right. rewrite Hh', Hc', Hh. simpl. repeat split; try lia; try tauto.
        intros j Hj. inversion Hj. subst j. exact Hl.
    + intros t' Hin'. destruct (Eg t' Hin') as [Ho|[Hi _]].
      * left. apply Effect_old_target. rewrite <- Ht. exact Ho.
      * right. exists tm. rewrite Ecb, Hi, Hn. simpl. tauto.
  - destruct (expire_shape i g s1) as (En & Eh & Et & Eg & _).
    rewrite En, Eh, Et, Eg, Hn, Hh. repeat split; try lia.
    + intros tm' Hin'. left. apply Hold. exact Hin'.
    + intros t' Hin'. apply filter_In in Hin'. left.
      apply Effect_old_target. rewrite <- Ht. tauto.
  - fold s1. rewrite Hn, Hh. repeat split; try lia.
    + intros tm' Hin'. left. apply Hold. exact Hin'.
    + intros t' Hin'. apply filter_In in Hin'. left.
      apply Effect_old_target. rewrite <- Ht. tauto.
Qed.

Lemma Effect_step (e : Event) (s s' : State) :
  Inv s -> step e s = Some s' -> Effect s s'.
Proof.
  intros HI. destruct e as [|d| |n|t|h o]; simpl.
  - destruct (gameActive s); [discriminate|].
    intros E. inversion E. apply Effect_startGame.
  - destruct (gameActive s); [discriminate|].
    intros E. inversion E. apply Effect_quiet; simpl; auto. lia.
  - destruct (gameActive s); [|discriminate].
    intros E. inversion E. unfold handleArenaClick.
    destruct (r_gameActive (render s)); apply Effect_quiet; simpl; auto; lia.
  - destruct (gameActive s); [|discriminate].
    destruct (nth_error (targets s) n) as [t|] eqn:En; [|discriminate].
    intros E. inversion E. apply Effect_onClickTarget.
    apply nth_error_In in En. exact En.
  - destruct (Z.leb_spec (now s) t) as [Hn|Hn]; [|discriminate]. simpl.
    destruct (forallb (fun tm => t <=? due tm) (timers s)); [|discriminate].
    intros E. inversion E. apply Effect_quiet; simpl; auto.
  - apply Effect_fire. exact HI.
Qed.

(** ** Ids are never reused *)

Lemma Fresh_effect (i : Z) (s s' : State) :
  Effect s s' -> Fresh i s -> Fresh i s'.
Proof.
  intros (En & _ & Et & _) (Hi & Hs). split; [lia|].
  intros tm' Hin Hsp.
  destruct (Et tm' Hin) as [(a & Ha & _ & Hc & Hd)|(_ & Hd & _)].
  - rewrite Hc in Hsp. specialize (Hs a Ha Hsp). lia.
  - specialize (Hd Hsp). lia.
Qed.

Lemma Gone_effect (i : Z) (s s' : State) :
  Effect s s' -> Gone i s -> Gone i s'.
Proof.
  intros HE (HF & Hn). split; [apply (Fresh_effect i s); assumption|].
  destruct HE as (_ & _ & _ & Eg). intros Hin. apply in_ids in Hin.
  destruct Hin as (t' & Hin & Hi).
  destruct (Eg t' Hin) as [(t & Ht & Hid & _)|(tm & Htm & Hsp & Hid)].
  - apply Hn. apply in_ids. exists t. split; [exact Ht|congruence].
  - destruct HF as (_ & Hs). specialize (Hs tm Htm Hsp). lia.
Qed.


Lemma Stale_effect (n t0 : Z) (s s' : State) :
  Effect s s' -> Stale n t0 s -> Stale n t0 s'.
Proof.
  intros (En & Eh & Et & Eg) (Hn & Hh & Hg & Ht).
  split; [lia|]. split; [lia|]. split.
  - intros t' Hin.
    destruct (Eg t' Hin) as [(t & Hin0 & Hid & _)|(tm & Htm & Hsp & Hid)].
    + specialize (Hg t Hin0). lia.
    + destruct (Ht tm Htm) as (Hlo & Hhi).
      destruct (Z.lt_ge_cases (handle tm) n) as [Hl|Hl].
      * specialize (Hlo Hl). destruct (callback tm); contradiction.
      * specialize (Hhi Hl Hsp). lia.
  - intros tm' Hin.
    destruct (Et tm' Hin) as [(a & Ha & Hha & Hc & Hd)|(Hnew & Hdue & _)].
    + destruct (Ht a Ha) as (Hlo & Hhi). rewrite Hc, Hha. split.
      * exact Hlo.
      * intros Hl Hsp. specialize (Hhi Hl Hsp). lia.
    + split; [lia|]. intros _ Hsp. specialize (Hdue Hsp). lia.
Qed.

Section RunInvariant.

Variable P : State -> Prop.
Hypothesis P_step :
  forall e s s', Inv s -> P s -> step e s = Some s' -> P s'.

Lemma run_preserves (es : list Event) (s s' : State) :
  Inv s -> P s -> run es s = Some s' -> P s'.
Proof.
  revert s. induction es as [|e es IH]; simpl; intros s HI HP E.
  - inversion E. subst. exact HP.
  - destruct (step e s) as [s1|] eqn:Es; [|discriminate].
    apply (IH s1); [apply (Inv_step e s); assumption| |exact E].
    apply (P_step e s); assumption.
Qed.

End RunInvariant.

Lemma live_fresh (s : State) (t : Target) :
  Inv s -> In t (targets s) -> Fresh (id t) s.
Proof.
  intros HI Ht. split; [apply (inv_ids s HI); exact Ht|].
  intros tm Hin Hsp. assert (Hk := inv_timer s HI tm Hin).
  unfold timer_ok in Hk. destruct (callback tm); try contradiction.
  destruct Hk as (_ & _ & _ & _ & _ & _ & Hk). apply Hk. exact Ht.
Qed.

Lemma Known_step (e : Event) (s s' : State) :
  Inv s -> Known s -> step e s = Some s' -> Known s'.
Proof.
  intros HI HK Hs. assert (HI' := Inv_step e s s' HI Hs).
  assert (HE := Effect_step e s s' HI Hs).
  intros tm' i Hin Hc.
  destruct HE as (En & Eh & Et & Eg).
  destruct (Et tm' Hin) as [(a & Ha & _ & Hca & _)|(_ & _ & Hl)].
  - apply (Fresh_effect i s); [repeat split; assumption|].
    apply (HK a); [exact Ha|congruence].
  - specialize (Hl i Hc). apply in_ids in Hl. destruct Hl as (t & Ht & Hi).
    rewrite <- Hi. apply live_fresh; assumption.
Qed.

Lemma Known_reachable (s : State) : reachable s -> Known s.
Proof.
  intros (t0 & es & H).
  apply (run_preserves Known Known_step es (initial t0)); auto.
  - apply Inv_initial.
  - intros tm i [].
Qed.

Lemma Gone_run (i : Z) (es : list Event) (s s' : State) :
  Inv s -> Gone i s -> run es s = Some s' -> Gone i s'.
Proof.
  apply (run_preserves (Gone i)). intros e s0 s1 HI HG Hs.
  apply (Gone_effect i s0); [|exact HG]. apply (Effect_step e); assumption.
Qed.


Lemma Stale_run (n t0 : Z) (es : list Event) (s s' : State) :
  Inv s -> Stale n t0 s -> run es s = Some s' -> Stale n t0 s'.
Proof.
  apply (run_preserves (Stale n t0)). intros e s0 s1 HI HG Hs.
  apply (Stale_effect n t0 s0); [|exact HG]. apply (Effect_step e); assumption.
Qed.

(** ** A scheduled removal stays scheduled until it fires *)





(** ** Firing an expiry or a removal *)

Lemma fire_found (h : Z) (o : Oracle) (s s' : State) (tm : Timer) :
  fire h o s = Some s' -> findTimer h s = Some tm ->
  s' = runCallback (callback tm) o (reschedule tm (set_now (due tm) s)).
Proof.
  intros Hf Hfind.
  destruct (fire_inv h o s s' Hf) as (tm0 & Hf0 & _ & _ & _ & E).
  rewrite Hfind in Hf0. inversion Hf0. subst tm0. exact E.
Qed.

Lemma filtering_shape (i : Z) (tm : Timer) (s : State) :
  let s' := removeHit i (reschedule tm (set_now (due tm) s)) in
  score s' = score s /\ misses s' = misses s /\
  targets s' = filter (other_id i) (targets s).
Proof.
  destruct (reschedule_fields tm (set_now (due tm) s))
    as (Ht & Hs & Hm & _).
  simpl. rewrite Ht, Hs, Hm. repeat split.
Qed.

Lemma expiring_shape (i : Z) (g : bool) (tm : Timer) (s : State) :
  let s' := expire i g (reschedule tm (set_now (due tm) s)) in
  score s' = score s /\
  misses s' = (if g then misses s + 1 else misses s) /\
  targets s' = filter (other_id i) (targets s).
Proof.
  destruct (reschedule_fields tm (set_now (due tm) s))
    as (Ht & Hs & Hm & _).
  destruct (expire_shape i g (reschedule tm (set_now (due tm) s)))
    as (_ & _ & _ & Et & Es & Em).
  simpl. rewrite Et, Es, Em, Ht, Hs, Hm. repeat split.
Qed.

(** In a reachable state every pending expiry carries the [gameActive] of
    the render that started its round, which is [false]. *)
Lemma expiry_flag (s : State) (tm : Timer) (i : Z) (g : bool) :
  reachable s -> In tm (timers s) -> callback tm = Expire i g -> g = false.
Proof.
  intros Hr Hin Hc. assert (Hk := inv_timer s (Inv_reachable s Hr) tm Hin).
  unfold timer_ok in Hk. rewrite Hc in Hk. tauto.
Qed.

Lemma idle_timers (s : State) (tm : Timer) :
  Inv s -> gameActive s = false -> In tm (timers s) ->
  every tm = None /\ inert (now s) (callback tm).
Proof.
  intros HI Hg Hin. assert (Hk := inv_timer s HI tm Hin).
  unfold timer_ok in Hk. destruct (callback tm) as [|st g|i g|i]; simpl.
  - destruct Hk as (H & _). congruence.
  - destruct Hk as (H & _). congruence.
  - tauto.
  - tauto.
Qed.

Lemma Stale_idle (s : State) :
  Inv s -> gameActive s = false -> Stale (nextHandle s) (now s) s.
Proof.
  intros HI Hg. split; [lia|]. split; [lia|]. split.
  - rewrite (inv_idle s HI Hg). intros t [].
  - intros tm Hin. split.
    + intros _. apply idle_timers; assumption.
    + intros Hle. assert (H := inv_handle s HI tm Hin). lia.
Qed.

(* ------------------------------------------------------------------ *)
(** * The claims *)

(** C1 (the code at the failing input).  A medium round, nobody taps: the
    target made at 1200 is live and not hit, the round is active, its
    expiry is pending and due at 2700.  When that expiry fires the target
    leaves the live set, the round is still active, and [misses] is what
    it was: the miss is not counted, because the closure tests the
    [gameActive] of the render that started the round. *)
Theorem expiry_counts_no_miss :
  run two_spawns (initial 0) = Some (state_after two_spawns) /\
  gameActive (state_after two_spawns) = true /\
  (exists t, nth_error (targets (state_after two_spawns)) 0 = Some t /\
             id t = 1200 /\ hit t = false) /\
  (exists tm, findTimer 3 (state_after two_spawns) = Some tm /\
              callback tm = Expire 1200 false /\ due tm = 2700) /\
  exists s', step (Fire 3 center) (state_after two_spawns) = Some s' /\
             gameActive s' = true /\ ~ In 1200 (ids (targets s')) /\
             misses s' = misses (state_after two_spawns).
Proof.
  split; [vm_compute; reflexivity|]. split; [vm_compute; reflexivity|]. split.
  - vm_compute. eexists. repeat split.
  - split.
    + vm_compute. eexists. repeat split.
    + vm_compute. eexists. split; [reflexivity|]. repeat split.
      intros [H|[]]. discriminate.
Qed.

(** A whole medium round without a tap: 23 targets expire while the round
    is active and [misses] ends at 0. *)
Example untouched_round_counts_nothing :
  gameActive (state_after full_round) = false /\
  now (state_after full_round) = 30000 /\
  misses (state_after full_round) = 0 /\
  score (state_after full_round) = 0.
Proof. vm_compute. repeat split. Qed.

(** C5.  Whatever the state before, also the one a finished round left
    behind, [startGame] sets score and misses to 0, timeLeft to 30, empties
    the live set and marks the round active. *)
Theorem startGame_resets (r : Render) (s : State) :
  score (startGame r s) = 0 /\ misses (startGame r s) = 0 /\
  timeLeft (startGame r s) = 30 /\ targets (startGame r s) = [] /\
  gameActive (startGame r s) = true.
Proof. repeat split. Qed.

(** C8.  A tap on the arena's background adds exactly 1 to [misses] and
    leaves score and live set alone while the round is active; with the
    round inactive the handler changes nothing at all. *)
Theorem handleArenaClick_counts (s : State) :
  (gameActive s = true ->
   misses (handleArenaClick (render s) s) = misses s + 1 /\
   score (handleArenaClick (render s) s) = score s /\
   targets (handleArenaClick (render s) s) = targets s) /\
  (gameActive s = false -> handleArenaClick (render s) s = s).
Proof.
  unfold handleArenaClick, render. simpl. split; intros H; rewrite H.
  - repeat split.
  - reflexivity.
Qed.

Lemma handleArenaClick_counts_witness :
  (misses (handleArenaClick (render (state_after two_spawns))
             (state_after two_spawns)) = 0 + 1) /\
  handleArenaClick (render (initial 0)) (initial 0) = initial 0.
Proof.
  split.
  - apply (proj1 (handleArenaClick_counts (state_after two_spawns)) eq_refl).
  - apply (proj2 (handleArenaClick_counts (initial 0)) eq_refl).
Defined.

(** C6.  In every reachable state an active round has [timeLeft >= 1], and
    the clock tick that brings [timeLeft] to 0 has ended the round in the
    same step. *)
Theorem active_round_has_time (s : State) :
  reachable s ->
  (gameActive s = true -> 1 <= timeLeft s) /\
  (timeLeft (gameTick s) = 0 -> gameActive (gameTick s) = false).
Proof.
  intros Hr. split.
  - apply (inv_clock s). apply Inv_reachable. exact Hr.
  - unfold gameTick. destruct (Z.leb_spec (timeLeft s) 1) as [Hl|Hl].
    + intros _. destruct (endGame_fields s) as (Eg & _). exact Eg.
    + simpl. intros H. lia.
Qed.

Lemma active_round_has_time_witness :
  1 <= timeLeft (state_after last_second) /\
  gameActive (gameTick (state_after last_second)) = false.
Proof.
  assert (Hr : reachable (state_after last_second)).
  { exists 0, last_second. vm_compute. reflexivity. }
  split.
  - apply (proj1 (active_round_has_time _ Hr)). vm_compute. reflexivity.
  - apply (proj2 (active_round_has_time _ Hr)). vm_compute. reflexivity.
Defined.

(** C9.  [endGame] after [endGame] is [endGame], on every state; and in a
    reachable state whose round is inactive [endGame] changes nothing. *)
Theorem endGame_idempotent :
  (forall s, endGame (endGame s) = endGame s) /\
  (forall s, reachable s -> gameActive s = false -> endGame s = s).
Proof.
  split.
  - intros s.
    destruct s as [tg sc mi ga tl di [g|] [t|] tms nh nw];
      cbv [endGame clearRef clearInterval set_timers setTargets setGameActive
           targets score misses gameActive timeLeft difficulty gameTimerRef
           targetTimerRef timers nextHandle now];
      f_equal.
    + rewrite (filter_absorb (other_handle g)).
      * apply filter_twice.
      * intros a Ha. apply filter_In in Ha. destruct Ha as [Ha _].
        apply filter_In in Ha. tauto.
    + apply filter_twice.
    + apply filter_twice.
  - intros s Hr Hg. assert (HI := Inv_reachable s Hr).
    assert (Ht := inv_idle s HI Hg).
    assert (Hk : forall tm, In tm (timers s) -> ~ is_ref s (handle tm)).
    { intros tm Hin. assert (Hk := inv_timer s HI tm Hin).
      unfold timer_ok in Hk. destruct (callback tm).
      - destruct Hk as (H & _). congruence.
      - destruct Hk as (H & _). congruence.
      - tauto.
      - tauto. }
    unfold is_ref in Hk.
    destruct s as [tg sc mi ga tl di [g|] [t|] tms nh nw]; simpl in *;
      subst;
      cbv [endGame clearRef clearInterval set_timers setTargets setGameActive
           targets score misses gameActive timeLeft difficulty gameTimerRef
           targetTimerRef timers nextHandle now];
      f_equal;
      repeat (rewrite filter_absorb;
              [|intros a Ha; try (apply filter_In in Ha; destruct Ha as [Ha _]);
                apply other_handle_spec; intros E; apply (Hk a Ha);
                rewrite E; tauto]);
      reflexivity.
Qed.

Lemma endGame_idempotent_witness :
  endGame (state_after full_round) = state_after full_round.
Proof.
  apply (proj2 endGame_idempotent).
  - exists 0, full_round. vm_compute. reflexivity.
  - vm_compute. reflexivity.
Defined.

(** C2.  Once a round has ended (the state is reachable and inactive), no
    interval of it is pending any more, and whenever a timer that was
    pending at that point fires later, at any point of any continuation,
    a new round included, score, misses and the live set are unchanged. *)
Theorem stale_callbacks_are_inert (s1 : State) :
  reachable s1 -> gameActive s1 = false ->
  (forall tm, In tm (timers s1) -> every tm = None) /\
  (forall es s2 h o s3,
     In h (map handle (timers s1)) ->
     run es s1 = Some s2 ->
     step (Fire h o) s2 = Some s3 ->
     score s3 = score s2 /\ misses s3 = misses s2 /\ targets s3 = targets s2).
Proof.
  intros Hr Hg. assert (HI := Inv_reachable s1 Hr). split.
  - intros tm Hin. apply (idle_timers s1 tm HI Hg Hin).
  - intros es s2 h o s3 Hh Hrun Hs.
    assert (HS := Stale_run _ _ es s1 s2 HI (Stale_idle s1 HI Hg) Hrun).
    destruct HS as (_ & _ & Htg & Htm).
    simpl in Hs. destruct (fire_inv h o s2 s3 Hs)
      as (tm & _ & Hin & Hhd & _ & E).
    assert (Hlt : h < nextHandle s1).
    { apply in_map_iff in Hh. destruct Hh as (tm1 & E1 & Hin1).
      rewrite <- E1. apply (inv_handle s1 HI). exact Hin1. }
    destruct (Htm tm Hin) as (Hinert & _).
    rewrite Hhd in Hinert. specialize (Hinert Hlt).
    assert (Hsame : forall i, i <= now s1 ->
              filter (other_id i) (targets s2) = targets s2).
    { intros i Hi. apply filter_absorb. intros t Ht.
      apply other_id_spec. specialize (Htg t Ht). lia. }
    destruct (callback tm) as [|st g|i g|i]; simpl in Hinert;
      try contradiction; subst s3; cbn [runCallback].
    + destruct Hinert as (Hgf & Hi). subst g.
      destruct (expiring_shape i false tm s2) as (Hs1 & Hs2 & Hs3).
      rewrite Hs1, Hs2, Hs3, (Hsame i Hi). repeat split.
    + destruct (filtering_shape i tm s2) as (Hs1 & Hs2 & Hs3).
      rewrite Hs1, Hs2, Hs3, (Hsame i Hinert). repeat split.
Qed.

Lemma stale_callbacks_are_inert_witness :
  score (state_after (full_round ++ [ClickStart; Fire 26 center]))
  = score (state_after (full_round ++ [ClickStart])) /\
  misses (state_after (full_round ++ [ClickStart; Fire 26 center]))
  = misses (state_after (full_round ++ [ClickStart])) /\
  targets (state_after (full_round ++ [ClickStart; Fire 26 center]))
  = targets (state_after (full_round ++ [ClickStart])).
Proof.
  apply (proj2 (stale_callbacks_are_inert (state_after full_round)
                  ltac:(exists 0, full_round; vm_compute; reflexivity)
                  ltac:(vm_compute; reflexivity))
           [ClickStart] _ 26 center).
  - vm_compute. left. reflexivity.
  - vm_compute. reflexivity.
  - vm_compute. reflexivity.
Defined.

(** C3.  When the expiry of a target fires, in any reachable state and so
    after any interleaving with taps, misses and score stay as they are, so
    a target counted as a hit is never also counted as a miss; and from
    then on no target with that id is in the live set, so no tap handler
    exists that could count a hit for it. *)
Theorem expiry_after_hit_counts_nothing
    (s : State) (h : Z) (o : Oracle) (s' : State) (tm : Timer)
    (i : Z) (g : bool) :
  reachable s -> findTimer h s = Some tm -> callback tm = Expire i g ->
  step (Fire h o) s = Some s' ->
  misses s' = misses s /\ score s' = score s /\
  forall es s'', run es s' = Some s'' -> ~ In i (ids (targets s'')).
Proof.
  intros Hr Hfind Hc Hs.
  assert (HI := Inv_reachable s Hr). assert (HK := Known_reachable s Hr).
  destruct (findTimer_some h s tm Hfind) as [Hin _].
  assert (g = false) by (apply (expiry_flag s tm i g); assumption). subst g.
  assert (HE := Effect_step _ s s' HI Hs).
  assert (HI' := Inv_step _ s s' HI Hs).
  assert (HF : Fresh i s').
  { apply (Fresh_effect i s s' HE). apply (HK tm); [exact Hin|].
    rewrite Hc. reflexivity. }
  simpl in Hs. assert (E := fire_found h o s s' tm Hs Hfind).
  rewrite Hc in E. cbn [runCallback] in E.
  destruct (expiring_shape i false tm s) as (Hs1 & Hs2 & Hs3).
  rewrite <- E in Hs1, Hs2, Hs3. repeat split; try assumption.
  intros es s'' Hrun.
  assert (HG : Gone i s').
  { split; [exact HF|]. rewrite Hs3. apply filter_other_id_absent. }
  apply (Gone_run i es s' s'' HI' HG Hrun).
Qed.

Lemma expiry_after_hit_counts_nothing_witness :
  misses (state_after (two_spawns ++ [Wait 2650; ClickTarget 0;
                                      Fire 3 center])) = 0 /\
  score (state_after (two_spawns ++ [Wait 2650; ClickTarget 0;
                                     Fire 3 center])) = 1.
Proof.
  destruct (expiry_after_hit_counts_nothing
              (state_after (two_spawns ++ [Wait 2650; ClickTarget 0]))
              3 center
              (state_after (two_spawns ++ [Wait 2650; ClickTarget 0;
                                           Fire 3 center]))
              (mkTimer 3 2700 None (Expire 1200 false)) 1200 false)
    as (Hm & Hs & _).
  - exists 0, (two_spawns ++ [Wait 2650; ClickTarget 0]).
    vm_compute. reflexivity.
  - vm_compute. reflexivity.
  - reflexivity.
  - vm_compute. reflexivity.
  - split; [rewrite Hm|rewrite Hs]; vm_compute; reflexivity.
Defined.

Lemma fire_score (h : Z) (o : Oracle) (s s' : State) :
  fire h o s = Some s' -> score s' = score s.
Proof.
  intros Hf. destruct (fire_inv h o s s' Hf) as (tm & _ & _ & _ & _ & E).
  destruct (reschedule_fields tm (set_now (due tm) s)) as (_ & Hs & _).
  simpl in Hs. subst s'.
  destruct (callback tm) as [|st g|i g|i]; cbn [runCallback].
  - destruct (gameTick_shape (reschedule tm (set_now (due tm) s)))
      as (_ & _ & Es & _).
    rewrite Es. exact Hs.
  - destruct (spawnTick_shape st g o (reschedule tm (set_now (due tm) s)))
      as (_ & Es & _).
    rewrite Es. exact Hs.
  - destruct (expire_shape i g (reschedule tm (set_now (due tm) s)))
      as (_ & _ & _ & _ & Es & _).
    rewrite Es. exact Hs.
  - simpl. exact Hs.
Qed.

(** The only event besides START GAME that changes the score is a tap on a
    live target that is not marked hit, and it adds 1: [hitTarget] runs for
    nothing else. *)
Lemma score_changes_by_tap (e : Event) (s s' : State) :
  step e s = Some s' -> is_start e = false -> score s' <> score s ->
  exists n t, e = ClickTarget n /\ nth_error (targets s) n = Some t /\
              hit t = false /\ score s' = score s + 1.
Proof.
  destruct e as [|d| |n|t|h o]; simpl; intros Hs Hn Hne.
  - discriminate.
  - destruct (gameActive s); [discriminate|]. inversion Hs. subst s'.
    simpl in Hne. congruence.
  - destruct (gameActive s); [|discriminate]. inversion Hs. subst s'.
    unfold handleArenaClick in Hne.
    destruct (r_gameActive (render s)); simpl in Hne; congruence.
  - destruct (gameActive s); [|discriminate].
    destruct (nth_error (targets s) n) as [t|] eqn:En; [|discriminate].
    inversion Hs. subst s'. unfold onClickTarget in *.
    destruct (hit t) eqn:Eh; [congruence|].
    exists n, t. repeat split; auto.
  - destruct ((now s <=? t) && forallb (fun tm => t <=? due tm) (timers s));
      [|discriminate].
    inversion Hs. subst s'. simpl in Hne. congruence.
  - apply fire_score in Hs. congruence.
Qed.

(** C4.  [hitTarget] is called from the tap handler of a rendered target
    alone, and only when the target is not marked hit.  So: a tap on a live
    target already marked hit changes nothing, score and live set
    included; a tap reaches live targets only, and no event other than
    START GAME changes the score unless it is a tap on a live target not
    yet hit, which adds exactly 1; and after such a tap a second tap on
    the same target changes nothing, so that tapping a target twice
    before it is removed adds 1 to score exactly once. *)
Theorem tap_counts_once (s : State) :
  (forall n t,
     gameActive s = true -> nth_error (targets s) n = Some t ->
     hit t = true -> step (ClickTarget n) s = Some s) /\
  (forall n s',
     step (ClickTarget n) s = Some s' ->
     exists t, nth_error (targets s) n = Some t /\
               In (id t) (ids (targets s))) /\
  (forall e s',
     step e s = Some s' -> is_start e = false -> score s' <> score s ->
     exists n t, e = ClickTarget n /\ nth_error (targets s) n = Some t /\
                 hit t = false /\ score s' = score s + 1) /\
  (forall n t s1,
     nth_error (targets s) n = Some t -> hit t = false ->
     step (ClickTarget n) s = Some s1 ->
     score s1 = score s + 1 /\
     forall n' t',
       nth_error (targets s1) n' = Some t' -> id t' = id t ->
       hit t' = true /\ step (ClickTarget n') s1 = Some s1).
Proof.
  split; [|split; [|split]].
  - intros n t Ha Hn Hh. simpl. rewrite Ha, Hn. unfold onClickTarget.
    rewrite Hh. reflexivity.
  - intros n s'. simpl. destruct (gameActive s); [|discriminate].
    destruct (nth_error (targets s) n) as [t|] eqn:En; [|discriminate].
    intros _. exists t. split; [reflexivity|].
    apply ids_self. apply nth_error_In in En. exact En.
  - intros e s'. apply score_changes_by_tap.
  - intros n t s1 Hn Hh. simpl.
    destruct (gameActive s) eqn:Ha; [|discriminate].
    rewrite Hn. unfold onClickTarget. rewrite Hh.
    intros E. inversion E. subst s1. clear E.
    split; [reflexivity|]. intros n' t' Hn' Hid.
    assert (Hh' : hit t' = true).
    { apply nth_error_In in Hn'. simpl in Hn'. apply in_map_iff in Hn'.
      destruct Hn' as (u & E & Hu). subst t'.
      rewrite mark_hit_id in Hid. rewrite mark_hit_hit.
      apply Z.eqb_eq in Hid. rewrite Hid. reflexivity. }
    split; [exact Hh'|].
    change (gameActive (hitTarget (id t) s)) with (gameActive s).
    rewrite Ha. cbn [render r_targets]. rewrite Hn'.
    unfold onClickTarget. rewrite Hh'. reflexivity.
Qed.

Lemma tap_counts_once_witness :
  score (state_after (two_spawns ++ [ClickTarget 0])) =
  score (state_after two_spawns) + 1 /\
  step (ClickTarget 0) (state_after (two_spawns ++ [ClickTarget 0]))
  = Some (state_after (two_spawns ++ [ClickTarget 0])).
Proof.
  destruct (proj2 (proj2 (proj2 (tap_counts_once (state_after two_spawns))))
              0%nat (first_target two_spawns)
              (state_after (two_spawns ++ [ClickTarget 0])))
    as (Hs & Hagain).
  - vm_compute. reflexivity.
  - vm_compute. reflexivity.
  - vm_compute. reflexivity.
  - split; [exact Hs|].
    apply (Hagain 0%nat (first_target (two_spawns ++ [ClickTarget 0]))).
    + vm_compute. reflexivity.
    + vm_compute. reflexivity.
Defined.

(** C7, the claim as stated fails.  In an arena 40 wide a medium target
    (60) made with the draw 1/2 gets a negative x. *)
Lemma narrow_arena_target_sticks_out :
  unit_draw (rand_x narrow) = true /\ unit_draw (rand_y narrow) = true /\
  exists nt,
    targets (spawnTick (difficultySettings medium) false narrow (initial 0))
    = [nt] /\ (x nt < 0)%Q.
Proof.
  split; [reflexivity|]. split; [reflexivity|].
  eexists. split; [reflexivity|]. reflexivity.
Qed.

Lemma unit_draw_spec (r : Q) :
  unit_draw r = true -> (0 <= r)%Q /\ (r < 1)%Q.
Proof.
  unfold unit_draw. intros H. apply andb_prop in H. destruct H as [H0 H1].
  apply Qle_bool_iff in H0. split; [exact H0|].
  apply Qnot_le_lt. intros Hle. apply Qle_bool_iff in Hle.
  rewrite Hle in H1. discriminate.
Qed.

Lemma scaled_draw (r d : Q) :
  (0 <= r)%Q -> (r < 1)%Q -> (0 <= d)%Q -> (0 <= r * d)%Q /\ (r * d <= d)%Q.
Proof.
  intros H0 H1 Hd. split.
  - apply Qmult_le_0_compat; assumption.
  - rewrite <- (Qmult_1_l d) at 2. apply Qmult_le_compat_r; [|exact Hd].
    apply Qlt_le_weak. exact H1.
Qed.

(** C7, amended.  When the arena is at least as wide and as high as the
    target size, the target a spawner tick appends lies inside it:
    [0 <= x <= w - size] and [0 <= y <= h - size], for any two draws in
    [0, 1). *)
Theorem spawned_target_inside_arena
    (st : Settings) (g : bool) (o : Oracle) (s : State) (w h : Q) :
  arenaRect o = Some (w, h) ->
  unit_draw (rand_x o) = true -> unit_draw (rand_y o) = true ->
  (inject_Z (targetSize st) <= w)%Q -> (inject_Z (targetSize st) <= h)%Q ->
  exists nt,
    targets (spawnTick st g o s) = targets s ++ [nt] /\ hit nt = false /\
    (0 <= x nt)%Q /\ (x nt <= w - inject_Z (targetSize st))%Q /\
    (0 <= y nt)%Q /\ (y nt <= h - inject_Z (targetSize st))%Q.
Proof.
  intros Ha Hx Hy Hw Hh. unfold spawnTick. rewrite Ha.
  exists (newTarget st w h (rand_x o) (rand_y o) (now s)).
  split; [reflexivity|]. split; [reflexivity|]. simpl.
  apply unit_draw_spec in Hx. apply unit_draw_spec in Hy.
  destruct Hx as [Hx0 Hx1], Hy as [Hy0 Hy1].
  assert (Hdw : (0 <= w - inject_Z (targetSize st))%Q) by lra.
  assert (Hdh : (0 <= h - inject_Z (targetSize st))%Q) by lra.
  destruct (scaled_draw _ _ Hx0 Hx1 Hdw) as [A B].
  destruct (scaled_draw _ _ Hy0 Hy1 Hdh) as [C D].
  repeat split; assumption.
Qed.

Lemma spawned_target_inside_arena_witness :
  exists nt,
    targets (spawnTick (difficultySettings medium) false center (initial 0))
    = targets (initial 0) ++ [nt] /\ hit nt = false /\
    (0 <= x nt)%Q /\ (x nt <= (400 # 1) - inject_Z 60)%Q /\
    (0 <= y nt)%Q /\ (y nt <= (500 # 1) - inject_Z 60)%Q.
Proof.
  apply (spawned_target_inside_arena (difficultySettings medium) false center
           (initial 0) (400 # 1) (500 # 1)).
  - reflexivity.
  - reflexivity.
  - reflexivity.
  - vm_compute. discriminate.
  - vm_compute. discriminate.
Defined.


(** The same with the target's own expiry: made at 1200, tapped at 2650,
    filtered out by the expiry at 2700. *)
Example hit_target_leaves_at_expiry :
  hit (first_target (two_spawns ++ [Wait 2650; ClickTarget 0])) = true /\
  now (state_after (two_spawns ++ [Wait 2650; ClickTarget 0; Fire 3 center]))
  = 2700 /\
  ids (targets (state_after (two_spawns ++ [Wait 2650; ClickTarget 0;
                                            Fire 3 center])))
  = [2400].
Proof. vm_compute. repeat split. Qed.



(* ------------------------------------------------------------------ *)
(** * Further properties of the component *)

(** ** The counters *)

Lemma reschedule_rest (tm : Timer) (s : State) :
  timeLeft (reschedule tm s) = timeLeft s /\
  difficulty (reschedule tm s) = difficulty s /\
  gameTimerRef (reschedule tm s) = gameTimerRef s /\
  targetTimerRef (reschedule tm s) = targetTimerRef s.
Proof. unfold reschedule. destruct (every tm); simpl; repeat split. Qed.

Lemma fire_counters (h : Z) (o : Oracle) (s s' : State) :
  Inv s -> fire h o s = Some s' ->
  score s' = score s /\ misses s' = misses s /\
  (timeLeft s' = timeLeft s \/
   timeLeft s' = 0 /\ timeLeft s <= 1 \/
   timeLeft s' = timeLeft s - 1 /\ 1 < timeLeft s).
Proof.
  intros HI Hf. destruct (fire_inv h o s s' Hf) as (tm & _ & Hin & _ & _ & E).
  assert (Hk := inv_timer s HI tm Hin). unfold timer_ok in Hk.
  destruct (reschedule_fields tm (set_now (due tm) s))
    as (_ & Hs & Hm & _).
  destruct (reschedule_rest tm (set_now (due tm) s)) as (Hl & _).
  simpl in Hs, Hm, Hl. subst s'.
  destruct (callback tm) as [|st g|i g|i]; cbn [runCallback].
  - destruct (gameTick_shape (reschedule tm (set_now (due tm) s)))
      as (_ & _ & Es & Em & _).
    rewrite Es, Em, Hs, Hm. split; [reflexivity|]. split; [reflexivity|].
    unfold gameTick. rewrite Hl.
    destruct (endGame_fields (reschedule tm (set_now (due tm) s)))
      as (_ & _ & _ & _ & El & _).
    destruct (Z.leb_spec (timeLeft s) 1); simpl; rewrite ?Hl; lia.
  - destruct (spawnTick_shape st g o (reschedule tm (set_now (due tm) s)))
      as (_ & Es & Em & _).
    rewrite Es, Em, Hs, Hm. split; [reflexivity|]. split; [reflexivity|].
    left. unfold spawnTick. destruct (arenaRect o) as [[w h']|]; simpl;
      exact Hl.
  - destruct (expire_shape i g (reschedule tm (set_now (due tm) s)))
      as (_ & _ & _ & _ & Es & Em).
    destruct Hk as (Hg & _). subst g.
    rewrite Es, Em, Hs, Hm. split; [reflexivity|]. split; [reflexivity|].
    left. exact Hl.
  - simpl. rewrite Hs, Hm, Hl. tauto.
Qed.

Lemma step_counters (e : Event) (s s' : State) :
  Inv s -> step e s = Some s' ->
  match e with
  | ClickStart => score s' = 0 /\ misses s' = 0 /\ timeLeft s' = 30
  | ClickArena =>
      score s' = score s /\ misses s' = misses s + 1 /\
      timeLeft s' = timeLeft s
  | ClickTarget _ =>
      (score s' = score s \/ score s' = score s + 1) /\
      misses s' = misses s /\ timeLeft s' = timeLeft s
  | Fire _ _ =>
      score s' = score s /\ misses s' = misses s /\
      (timeLeft s' = timeLeft s \/
       timeLeft s' = 0 /\ timeLeft s <= 1 \/
       timeLeft s' = timeLeft s - 1 /\ 1 < timeLeft s)
  | _ =>
      score s' = score s /\ misses s' = misses s /\ timeLeft s' = timeLeft s
  end.
Proof.
  intros HI. destruct e as [|d| |n|t|h o]; simpl.
  - destruct (gameActive s); [discriminate|]. intros E. inversion E.
    repeat split.
  - destruct (gameActive s); [discriminate|]. intros E. inversion E.
    repeat split.
  - destruct (gameActive s) eqn:Eg; [|discriminate]. intros E. inversion E.
    unfold handleArenaClick, render. simpl. rewrite Eg. repeat split.
  - destruct (gameActive s); [|discriminate].
    destruct (nth_error (targets s) n) as [t|]; [|discriminate].
    intros E. inversion E. unfold onClickTarget.
    destruct (hit t); simpl; repeat split; lia.
  - destruct ((now s <=? t) && forallb (fun tm => t <=? due tm) (timers s));
      [|discriminate].
    intros E. inversion E. repeat split.
  - apply fire_counters. exact HI.
Qed.

Lemma counters_step (e : Event) (s s' : State) :
  Inv s ->
  0 <= score s /\ 0 <= misses s /\ 0 <= timeLeft s <= 30 ->
  step e s = Some s' ->
  0 <= score s' /\ 0 <= misses s' /\ 0 <= timeLeft s' <= 30.
Proof.
  intros HI H Hs. assert (Hc := step_counters e s s' HI Hs).
  destruct e; lia.
Qed.

Lemma counters_reachable (s : State) :
  reachable s -> 0 <= score s /\ 0 <= misses s /\ 0 <= timeLeft s <= 30.
Proof.
  intros (t0 & es & H).
  apply (run_preserves _ counters_step es (initial t0)); auto.
  - apply Inv_initial.
  - simpl. lia.
Qed.

(** X1.  In every reachable state score and misses are not negative and
    timeLeft is between 0 and 30. *)
Theorem counters_in_range (s : State) :
  reachable s -> 0 <= score s /\ 0 <= misses s /\ 0 <= timeLeft s <= 30.
Proof. apply counters_reachable. Qed.

Lemma counters_in_range_witness :
  0 <= score (state_after late_hit) /\ 0 <= misses (state_after late_hit) /\
  0 <= timeLeft (state_after late_hit) <= 30.
Proof.
  apply counters_in_range. exists 0, late_hit. vm_compute. reflexivity.
Defined.

(** X2.  From a reachable state on, as long as no new game is started,
    misses grows by exactly the number of taps on the arena's background:
    no timer, and so no expiring target, ever changes it. *)
Theorem misses_count_background_taps (es : list Event) (s s' : State) :
  reachable s -> no_start es = true -> run es s = Some s' ->
  misses s' = misses s + arena_taps es.
Proof.
  intros Hr. assert (HI := Inv_reachable s Hr). clear Hr. revert s HI.
  induction es as [|e es IH]; simpl; intros s HI Hn Hrun.
  - inversion Hrun. lia.
  - apply andb_prop in Hn. destruct Hn as [He Hn].
    destruct (step e s) as [s1|] eqn:Es; [|discriminate].
    assert (Hc := step_counters e s s1 HI Es).
    rewrite (IH s1 (Inv_step e s s1 HI Es) Hn Hrun).
    destruct e; simpl in *; try discriminate; lia.
Qed.

Lemma misses_count_background_taps_witness :
  misses (state_after (late_hit ++ [ClickArena; Fire 1 center; Fire 27 center]))
  = misses (state_after late_hit)
    + arena_taps [ClickArena; Fire 1 center; Fire 27 center].
Proof.
  apply misses_count_background_taps.
  - exists 0, late_hit. vm_compute. reflexivity.
  - reflexivity.
  - vm_compute. reflexivity.
Defined.

(** X3.  From a reachable state on, as long as no new game is started,
    score never goes down and grows by at most one for each tap on a
    target button: no timer ever changes it. *)
Theorem score_grows_by_taps (es : list Event) (s s' : State) :
  reachable s -> no_start es = true -> run es s = Some s' ->
  score s <= score s' <= score s + target_taps es.
Proof.
  intros Hr. assert (HI := Inv_reachable s Hr). clear Hr. revert s HI.
  induction es as [|e es IH]; simpl; intros s HI Hn Hrun.
  - inversion Hrun. lia.
  - apply andb_prop in Hn. destruct Hn as [He Hn].
    destruct (step e s) as [s1|] eqn:Es; [|discriminate].
    assert (Hc := step_counters e s s1 HI Es).
    assert (H1 := IH s1 (Inv_step e s s1 HI Es) Hn Hrun).
    destruct e; simpl in *; try discriminate; lia.
Qed.

Lemma score_grows_by_taps_witness :
  score (state_after last_second)
  <= score (state_after (last_second ++ [Wait 29900; ClickTarget 0;
                                         ClickTarget 0; Fire 1 center]))
  <= score (state_after last_second)
     + target_taps [Wait 29900; ClickTarget 0; ClickTarget 0; Fire 1 center].
Proof.
  apply score_grows_by_taps.
  - exists 0, last_second. vm_compute. reflexivity.
  - reflexivity.
  - vm_compute. reflexivity.
Defined.

(** ** Unmounting *)

Lemma cleanup_timers (s : State) (tm : Timer) :
  In tm (timers (cleanup s)) <->
  In tm (timers s) /\ ~ is_ref s (handle tm).
Proof.
  unfold cleanup, clearRef, clearInterval, is_ref.
  destruct s as [tg sc mi ga tl di [g|] [t|] tms nh nw]; simpl;
    repeat rewrite filter_In; repeat rewrite other_handle_spec;
    intuition congruence.
Qed.

Lemma cleanup_fields (s : State) :
  targets (cleanup s) = targets s /\ score (cleanup s) = score s /\
  misses (cleanup s) = misses s /\ gameActive (cleanup s) = gameActive s /\
  timeLeft (cleanup s) = timeLeft s.
Proof.
  unfold cleanup, clearRef, clearInterval.
  destruct s as [tg sc mi ga tl di [g|] [t|] tms nh nw]; simpl; repeat split.
Qed.

(** X4.  In every reachable state the unmount cleanup cancels the round
    clock and the spawner, so that no interval is left running; it cancels
    no timeout (the pending expiries and removals stay pending) and it
    leaves the live set, the counters and the active flag as they are. *)
Theorem cleanup_cancels_intervals (s : State) :
  reachable s ->
  (forall tm, In tm (timers (cleanup s)) -> every tm = None) /\
  (forall tm, In tm (timers s) -> every tm = None ->
              In tm (timers (cleanup s))) /\
  targets (cleanup s) = targets s /\ score (cleanup s) = score s /\
  misses (cleanup s) = misses s /\ gameActive (cleanup s) = gameActive s.
Proof.
  intros Hr. assert (HI := Inv_reachable s Hr).
  destruct (cleanup_fields s) as (H1 & H2 & H3 & H4 & _).
  split; [|split; [|tauto]].
  - intros tm Hin. apply cleanup_timers in Hin. destruct Hin as [Hin Hn].
    assert (Hk := inv_timer s HI tm Hin). unfold timer_ok, is_ref in *.
    destruct (callback tm); try tauto.
  - intros tm Hin He. apply cleanup_timers. split; [exact Hin|].
    assert (Hk := inv_timer s HI tm Hin). unfold timer_ok in Hk.
    destruct (callback tm).
    + destruct Hk as (_ & _ & p & Hp & _). congruence.
    + destruct Hk as (_ & _ & _ & Hp & _). congruence.
    + tauto.
    + tauto.
Qed.

Lemma cleanup_cancels_intervals_witness :
  targets (cleanup (state_after late_hit)) = targets (state_after late_hit) /\
  score (cleanup (state_after late_hit)) = score (state_after late_hit) /\
  misses (cleanup (state_after late_hit)) = misses (state_after late_hit) /\
  gameActive (cleanup (state_after late_hit))
  = gameActive (state_after late_hit).
Proof.
  apply (cleanup_cancels_intervals (state_after late_hit)).
  exists 0, late_hit. vm_compute. reflexivity.
Defined.

(** ** The accuracy on display *)

Lemma Math_round_range (q : Q) :
  (0 <= q)%Q -> (q <= 100 # 1)%Q -> 0 <= Math_round q <= 100.
Proof.
  intros H0 H1. unfold Math_round. split.
  - change 0 with (Qfloor (1 # 2)). apply Qfloor_resp_le. lra.
  - change 100 with (Qfloor (201 # 2)). apply Qfloor_resp_le. lra.
Qed.

Lemma Math_round_hundred (q : Q) : (q == 100 # 1)%Q -> Math_round q = 100.
Proof.
  intros H. unfold Math_round. rewrite H. reflexivity.
Qed.

Lemma ratio_range (a b : Z) :
  0 < a -> 0 <= b ->
  (0 <= inject_Z a / inject_Z (a + b))%Q /\
  (inject_Z a / inject_Z (a + b) <= 1)%Q.
Proof.
  intros Ha Hb.
  assert (H1 : (0 < inject_Z (a + b))%Q).
  { change 0%Q with (inject_Z 0). rewrite <- Zlt_Qlt. lia. }
  assert (H2 : (inject_Z a <= inject_Z (a + b))%Q).
  { rewrite <- Zle_Qle. lia. }
  assert (H3 : (0 <= inject_Z a)%Q).
  { change 0%Q with (inject_Z 0). rewrite <- Zle_Qle. lia. }
  split.
  - apply Qle_shift_div_l; [exact H1|]. lra.
  - apply Qle_shift_div_r; [exact H1|]. lra.
Qed.

Lemma rounding_respects (fl : Q -> Q) (a b : Q) :
  (forall u v, (u <= v)%Q -> (fl u <= fl v)%Q) ->
  (a == b)%Q -> (fl a == fl b)%Q.
Proof.
  intros Hm E. apply Qle_antisym; apply Hm; rewrite E; apply Qle_refl.
Qed.

(** X5.  Whenever the Game Over panel is on display, the accuracy it shows
    is a percentage between 0 and 100, and it is 100 when there was no
    miss; the division is by a positive number.  This holds for every
    rounding of the quotient and the product that is monotone and leaves
    0, 1 and 100 as they are, as rounding to a double does. *)
Theorem accuracy_is_a_percentage (fl : Q -> Q) (s : State) :
  (forall u v, (u <= v)%Q -> (fl u <= fl v)%Q) ->
  (fl 0 == 0)%Q -> (fl 1 == 1)%Q -> (fl (100 # 1) == 100 # 1)%Q ->
  reachable s -> gameOverShown s = true ->
  0 < score s + misses s /\
  0 <= accuracy fl (score s) (misses s) <= 100 /\
  (misses s = 0 -> accuracy fl (score s) (misses s) = 100).
Proof.
  intros Hm F0 F1 F100 Hr Hshown.
  destruct (counters_reachable s Hr) as (_ & Hmi & _).
  unfold gameOverShown in Hshown. apply andb_prop in Hshown.
  destruct Hshown as [_ Hsc]. unfold accuracy. rewrite Hsc.
  apply Z.ltb_lt in Hsc.
  destruct (ratio_range (score s) (misses s) Hsc Hmi) as [R0 R1].
  set (q := (inject_Z (score s) / inject_Z (score s + misses s))%Q) in *.
  assert (Q0 : (0 <= fl q)%Q).
  { apply (Qle_trans _ (fl 0%Q)); [|apply Hm; exact R0].
    apply Qle_lteq. right. symmetry. exact F0. }
  assert (Q1 : (fl q <= 1)%Q).
  { apply (Qle_trans _ (fl 1%Q)); [apply Hm; exact R1|].
    apply Qle_lteq. right. exact F1. }
  split; [lia|]. split.
  - apply Math_round_range.
    + apply (Qle_trans _ (fl 0%Q)); [|apply Hm; lra].
      apply Qle_lteq. right. symmetry. exact F0.
    + apply (Qle_trans _ (fl (100 # 1)%Q)); [apply Hm; lra|].
      apply Qle_lteq. right. exact F100.
  - intros Hz. apply Math_round_hundred.
    assert (Eq : (q == 1)%Q).
    { unfold q. rewrite Hz, Z.add_0_r. apply Qmult_inv_r.
      intros E. change 0%Q with (inject_Z 0) in E.
      assert (score s = 0) by (apply inject_Z_injective; exact E). lia. }
    assert (E1 : (fl q == 1)%Q).
    { apply (Qeq_trans _ (fl 1%Q)); [|exact F1].
      apply rounding_respects; assumption. }
    apply (Qeq_trans _ (fl (100 # 1)%Q)); [|exact F100].
    apply rounding_respects; [exact Hm|]. lra.
Qed.

Lemma accuracy_is_a_percentage_witness :
  0 < score (state_after (late_hit ++ [Fire 1 center]))
      + misses (state_after (late_hit ++ [Fire 1 center])) /\
  0 <= accuracy (fun q => q)
         (score (state_after (late_hit ++ [Fire 1 center])))
         (misses (state_after (late_hit ++ [Fire 1 center]))) <= 100 /\
  (misses (state_after (late_hit ++ [Fire 1 center])) = 0 ->
   accuracy (fun q => q)
     (score (state_after (late_hit ++ [Fire 1 center])))
     (misses (state_after (late_hit ++ [Fire 1 center]))) = 100).
Proof.
  apply (accuracy_is_a_percentage (fun q => q)
           (state_after (late_hit ++ [Fire 1 center]))).
  - intros u v H. exact H.
  - reflexivity.
  - reflexivity.
  - reflexivity.
  - exists 0, (late_hit ++ [Fire 1 center]). vm_compute. reflexivity.
  - vm_compute. reflexivity.
Defined.

(** ** Timers and live targets *)

Lemma again_other (tm0 a : Timer) :
  handle a <> handle tm0 -> again tm0 a = a.
Proof.
  intros H. unfold again. apply Z.eqb_neq in H. rewrite H. reflexivity.
Qed.

Lemma again_self (tm0 : Timer) (p : Z) :
  every tm0 = Some p ->
  again tm0 tm0 = mkTimer (handle tm0) (due tm0 + p) (Some p) (callback tm0).
Proof.
  intros H. unfold again. rewrite Z.eqb_refl, H. reflexivity.
Qed.

Lemma other_timer_other_handle (s : State) (a tm0 : Timer) :
  Inv s -> In a (timers s) -> In tm0 (timers s) -> a <> tm0 ->
  handle a <> handle tm0.
Proof.
  intros HI Ha H0 Hne Hh. apply Hne.
  apply (same_handle_same_timer (timers s)); auto. apply (inv_nodup s HI).
Qed.

(** The timers other than the fired one stay as they are. *)
Lemma rescheduled_in (s : State) (tm0 a : Timer) (t : Z) :
  Inv s -> In tm0 (timers s) -> In a (timers s) -> a <> tm0 ->
  In a (timers (reschedule tm0 (set_now t s))).
Proof.
  intros HI H0 Ha Hne. apply reschedule_keeps; [exact Ha|].
  apply (other_timer_other_handle s); assumption.
Qed.

(** A fired interval is pending again, one period later. *)
Lemma rescheduled_self (s : State) (tm0 : Timer) (t p : Z) :
  In tm0 (timers s) -> every tm0 = Some p ->
  In (mkTimer (handle tm0) (due tm0 + p) (Some p) (callback tm0))
     (timers (reschedule tm0 (set_now t s))).
Proof.
  intros H0 Hp. unfold reschedule. rewrite Hp. simpl.
  rewrite <- (again_self tm0 p Hp). apply in_map. exact H0.
Qed.

(** Nothing else is pending after the rescheduling. *)
Lemma rescheduled_from (s : State) (tm0 a' : Timer) (t : Z) :
  Inv s -> In tm0 (timers s) ->
  In a' (timers (reschedule tm0 (set_now t s))) ->
  (In a' (timers s) /\ a' <> tm0) \/
  (exists p, every tm0 = Some p /\
             a' = mkTimer (handle tm0) (due tm0 + p) (Some p) (callback tm0)).
Proof.
  intros HI H0. unfold reschedule.
  destruct (every tm0) as [p|] eqn:Ep; simpl; intros Hin.
  - apply in_map_iff in Hin. destruct Hin as (a & E & Ha). subst a'.
    destruct (Z.eq_dec (handle a) (handle tm0)) as [Hh|Hh].
    + assert (a = tm0).
      { apply (same_handle_same_timer (timers s)); auto.
        apply (inv_nodup s HI). }
      subst a. right. exists p. split; [reflexivity|].
      apply again_self. exact Ep.
    + left. rewrite (again_other tm0 a Hh). split; [exact Ha|].
      intros E. apply Hh. rewrite E. reflexivity.
  - apply filter_In in Hin. destruct Hin as [Ha Ho].
    apply other_handle_spec in Ho. left. split; [exact Ha|].
    intros E. apply Ho. rewrite E. reflexivity.
Qed.

Lemma Live_initial (t0 : Z) : Live (initial t0).
Proof.
  constructor; simpl; try discriminate; try tauto.
Qed.

(** Updates that cancel no timer, add no spawner, and keep the ids of the
    live set. *)
Lemma Live_frame (s s' : State) :
  difficulty s' = difficulty s -> gameActive s' = gameActive s ->
  now s <= now s' ->
  (forall tm, In tm (timers s) -> In tm (timers s')) ->
  (forall tm, In tm (timers s') ->
              In tm (timers s) \/ ~ is_spawn (callback tm)) ->
  ids (targets s') = ids (targets s) ->
  (forall t', In t' (targets s') -> hit t' = true ->
     (exists t, In t (targets s) /\ id t = id t' /\ hit t = true) \/
     (exists tm, In tm (timers s') /\ callback tm = RemoveHit (id t') /\
                 due tm <= now s' + 200)) ->
  Live s -> Live s'.
Proof.
  intros Hd Hg Hn Hsub Hnew Hids Hhit [L1 L2 L3 L6 L7].
  assert (Hlive : forall t', In t' (targets s') ->
            exists t, In t (targets s) /\ id t = id t').
  { intros t' Ht'. apply ids_self in Ht'. rewrite Hids in Ht'.
    apply in_ids in Ht'. exact Ht'. }
  constructor; unfold round_settings in *; rewrite ?Hd, ?Hg, ?Hids.
  - intros tm st g Hin Hc. destruct (Hnew tm Hin) as [Ho|Ho].
    + apply (L1 tm st g Ho Hc).
    + rewrite Hc in Ho. simpl in Ho. tauto.
  - intros t' Ht'. destruct (Hlive t' Ht') as (t & Ht & E).
    destruct (L2 t Ht) as (tm & Hin & Hc & Hdue).
    exists tm. rewrite <- E. auto.
  - intros t' Ht' Hh.
    destruct (Hhit t' Ht' Hh) as [(t & Ht & E & Hht)|Hr]; [|exact Hr].
    destruct (L3 t Ht Hht) as (tm & Hin & Hc & Hdue).
    exists tm. rewrite <- E. split; [auto|]. split; [exact Hc|lia].
  - intros Ha. destruct (L6 Ha) as (tm & Hin & Hc & He & Hdue).
    exists tm. split; [auto|]. split; [exact Hc|]. split; [exact He|lia].
  - intros Ha. destruct (L7 Ha) as (tm & Hin & Hc & Hdue).
    exists tm. split; [auto|]. split; [exact Hc|lia].
Qed.

Lemma Live_startGame (s : State) :
  Inv s -> gameActive s = false -> Live (startGame (render s) s).
Proof.
  intros HI Hg.
  assert (Hold : forall tm, In tm (timers s) -> ~ is_spawn (callback tm)).
  { intros tm Hin Hsp. assert (Hk := inv_timer s HI tm Hin).
    unfold timer_ok in Hk. destruct (callback tm); try contradiction.
    destruct Hk as (H & _). congruence. }
  constructor; unfold round_settings; simpl; try tauto.
  - intros tm st g Hin Hc.
    repeat (apply in_app_iff in Hin; destruct Hin as [Hin|Hin]).
    + exfalso. apply (Hold tm Hin). rewrite Hc. exact I.
    + destruct Hin as [Hin|[]]. subst tm. discriminate.
    + destruct Hin as [Hin|[]]. subst tm. simpl in Hc. congruence.
  - intros _.
    exists (mkTimer (nextHandle s) (now s + 1000) (Some 1000) GameTick).
    repeat rewrite in_app_iff. simpl. repeat split; try tauto. lia.
  - intros _.
    exists (mkTimer (nextHandle s + 1)
              (now s + spawnInterval (difficultySettings (difficulty s)))
              (Some (spawnInterval (difficultySettings (difficulty s))))
              (SpawnTick (difficultySettings (difficulty s)) false)).
    repeat rewrite in_app_iff. simpl. rewrite Hg.
    repeat split; try tauto. lia.
Qed.

Lemma Live_setDifficulty (d : Difficulty) (s : State) :
  Inv s -> gameActive s = false -> Live (setDifficulty d s).
Proof.
  intros HI Hg. assert (Ht := inv_idle s HI Hg).
  constructor; unfold round_settings; simpl; rewrite ?Ht, ?Hg.
  - intros tm st g Hin Hc. assert (Hk := inv_timer s HI tm Hin).
    unfold timer_ok in Hk. rewrite Hc in Hk. destruct Hk as (H & _).
    congruence.
  - intros t [].
  - intros t [].
  - discriminate.
  - discriminate.
Qed.

Lemma Live_hitTarget (i : Z) (s : State) : Live s -> Live (hitTarget i s).
Proof.
  apply Live_frame; simpl; try reflexivity; try lia.
  - intros tm Hin. apply in_app_iff. tauto.
  - intros tm Hin. apply in_app_iff in Hin. destruct Hin as [Hin|[Hin|[]]].
    + tauto.
    + subst tm. simpl. tauto.
  - apply ids_mark_hit.
  - intros t' Hin Hh. apply in_map_iff in Hin.
    destruct Hin as (t & E & Ht). subst t'.
    rewrite mark_hit_hit in Hh. rewrite mark_hit_id.
    destruct (Z.eqb_spec (id t) i) as [Ei|Ei].
    + right. exists (mkTimer (nextHandle s) (now s + 200) None (RemoveHit i)).
      rewrite in_app_iff, Ei. simpl. repeat split; try tauto. lia.
    + left. exists t. simpl in Hh. tauto.
Qed.

Lemma timeout_closure (s : State) (tm : Timer) (i : Z) :
  Inv s -> In tm (timers s) -> closure_id (callback tm) = Some i ->
  every tm = None.
Proof.
  intros HI Hin Hc. assert (Hk := inv_timer s HI tm Hin).
  unfold timer_ok in Hk. destruct (callback tm); try discriminate; tauto.
Qed.

Lemma Live_fired_interval (s : State) (tm0 : Timer) (p : Z) :
  Inv s -> Live s -> In tm0 (timers s) -> every tm0 = Some p ->
  Live (reschedule tm0 (set_now (due tm0) s)).
Proof.
  intros HI [L1 L2 L3 L6 L7] H0 Hp.
  assert (Hnow := inv_due s HI tm0 H0).
  assert (Hpos : 0 < p) by (apply (pending_periods s HI tm0); assumption).
  destruct (reschedule_fields tm0 (set_now (due tm0) s))
    as (Ht & _ & _ & Hg & Hn & _).
  destruct (reschedule_rest tm0 (set_now (due tm0) s)) as (_ & Hd & _).
  simpl in Ht, Hg, Hn, Hd.
  assert (Hkeep : forall a i, In a (timers s) ->
            closure_id (callback a) = Some i ->
            In a (timers (reschedule tm0 (set_now (due tm0) s)))).
  { intros a i Ha Hc. apply rescheduled_in; auto.
    intros E. subst a. rewrite (timeout_closure s tm0 i HI H0 Hc) in Hp.
    discriminate. }
  assert (Hint : forall a, In a (timers s) ->
            exists a', In a' (timers (reschedule tm0 (set_now (due tm0) s)))
                       /\ callback a' = callback a /\ every a' = every a /\
                       (a' = a \/ a = tm0 /\ due a' = due tm0 + p)).
  { intros a Ha. destruct (Z.eq_dec (handle a) (handle tm0)) as [Hh|Hh].
    - assert (a = tm0).
      { apply (same_handle_same_timer (timers s)); auto.
        apply (inv_nodup s HI). }
      subst a. eexists. split; [apply rescheduled_self; eassumption|].
      simpl. auto.
    - exists a. split; [|auto]. apply reschedule_keeps; assumption. }
  constructor; unfold round_settings in *; rewrite ?Ht, ?Hg, ?Hn, ?Hd.
  - intros tm st g Hin Hc.
    destruct (rescheduled_from s tm0 tm _ HI H0 Hin)
      as [[Ho _]|(q & _ & E)].
    + apply (L1 tm st g Ho Hc).
    + subst tm. simpl in Hc. apply (L1 tm0 st g H0 Hc).
  - intros t Hin. destruct (L2 t Hin) as (tm & Hi & Hc & Hdue).
    exists tm. split; [|auto]. apply (Hkeep tm (id t)); [exact Hi|].
    rewrite Hc. reflexivity.
  - intros t Hin Hh. destruct (L3 t Hin Hh) as (tm & Hi & Hc & Hdue).
    exists tm. split; [|split; [exact Hc|lia]].
    apply (Hkeep tm (id t)); [exact Hi|]. rewrite Hc. reflexivity.
  - intros Ha. destruct (L6 Ha) as (tm & Hin & Hc & He & Hdue).
    destruct (Hint tm Hin) as (a' & Hin' & Hc' & He' & [E|[E Hd']]).
    + subst a'. exists tm. repeat split; auto. lia.
    + exists a'. subst tm. assert (p = 1000) by congruence.
      repeat split; try congruence. lia.
  - intros Ha. destruct (L7 Ha) as (tm & Hin & Hc & Hdue).
    destruct (Hint tm Hin) as (a' & Hin' & Hc' & He' & [E|[E Hd']]).
    + subst a'. exists tm. repeat split; auto. lia.
    + exists a'. subst tm. assert (Hk := inv_timer s HI tm0 H0).
      unfold timer_ok in Hk. rewrite Hc in Hk.
      destruct Hk as (_ & _ & _ & Hev & _).
      assert (p = spawnInterval (difficultySettings (difficulty s)))
        by congruence.
      repeat split; try congruence. lia.
Qed.

Lemma Live_endGame (s : State) : Live s -> Live (endGame s).
Proof.
  intros [L1 L2 L3 L6 L7].
  destruct (endGame_fields s)
    as (Eg & Et & _ & _ & _ & _ & _ & _ & _ & Ed).
  constructor; unfold round_settings in *; rewrite ?Eg, ?Et, ?Ed.
  - intros tm st g Hin Hc. apply endGame_timers in Hin.
    apply (L1 tm st g); tauto.
  - intros t [].
  - intros t [].
  - discriminate.
  - discriminate.
Qed.

Lemma Live_setTimeLeft (f : Z -> Z) (s : State) :
  Live s -> Live (setTimeLeft f s).
Proof. intros [L1 L2 L3 L6 L7]. constructor; assumption. Qed.

Lemma Live_gameTick (s : State) : Live s -> Live (gameTick s).
Proof.
  intros HL. unfold gameTick. destruct (timeLeft s <=? 1).
  - apply Live_setTimeLeft. apply Live_endGame. exact HL.
  - apply Live_setTimeLeft. exact HL.
Qed.

Lemma Live_spawnTick (st : Settings) (g : bool) (o : Oracle) (s : State) :
  st = round_settings s -> g = false ->
  Live s -> Live (spawnTick st g o s).
Proof.
  intros Hst Hg [L1 L2 L3 L6 L7]. subst g.
  unfold spawnTick. destruct (arenaRect o) as [[w h]|];
    [|constructor; assumption].
  set (ex := mkTimer (nextHandle s) (now s + targetDuration st) None
               (Expire (now s) false)).
  constructor; unfold round_settings in *; simpl; fold ex.
  - intros tm st' g Hin Hc. apply in_app_iff in Hin.
    destruct Hin as [Hin|[Hin|[]]].
    + apply (L1 tm st' g Hin Hc).
    + subst tm. discriminate.
  - intros t Hin. apply in_app_iff in Hin. destruct Hin as [Hin|[Hin|[]]].
    + destruct (L2 t Hin) as (tm & Hi & Hc & Hdue). exists tm.
      rewrite in_app_iff. tauto.
    + subst t. exists ex. rewrite in_app_iff. simpl.
      rewrite Hst. repeat split; try tauto.
  - intros t Hin Hh. apply in_app_iff in Hin.
    destruct Hin as [Hin|[Hin|[]]].
    + destruct (L3 t Hin Hh) as (tm & Hi & Hc & Hdue). exists tm.
      rewrite in_app_iff. tauto.
    + subst t. discriminate.
  - intros Ha. destruct (L6 Ha) as (tm & Hin & Hc). exists tm.
    rewrite in_app_iff. tauto.
  - intros Ha. destruct (L7 Ha) as (tm & Hin & Hc). exists tm.
    rewrite in_app_iff. tauto.
Qed.

Lemma Live_filtered (s : State) (tm0 : Timer) (i : Z) :
  Inv s -> Live s -> In tm0 (timers s) ->
  closure_id (callback tm0) = Some i ->
  Live (removeHit i (reschedule tm0 (set_now (due tm0) s))).
Proof.
  intros HI [L1 L2 L3 L6 L7] H0 Hc0.
  assert (Hnow := inv_due s HI tm0 H0).
  assert (Hev := timeout_closure s tm0 i HI H0 Hc0).
  destruct (reschedule_fields tm0 (set_now (due tm0) s))
    as (Ht & _ & _ & Hg & Hn & _).
  destruct (reschedule_rest tm0 (set_now (due tm0) s)) as (_ & Hd & _).
  simpl in Ht, Hg, Hn, Hd.
  assert (Hfrom : forall a,
            In a (timers (reschedule tm0 (set_now (due tm0) s))) ->
            In a (timers s)).
  { intros a Ha.
    destruct (rescheduled_from s tm0 a _ HI H0 Ha) as [[Ho _]|(q & Hq & _)].
    - exact Ho.
    - congruence. }
  assert (Hkeep : forall a, In a (timers s) ->
            closure_id (callback a) <> Some i ->
            In a (timers (reschedule tm0 (set_now (due tm0) s)))).
  { intros a Ha Hc. apply rescheduled_in; auto. congruence. }
  constructor; unfold round_settings in *; simpl; rewrite ?Ht, ?Hg, ?Hn, ?Hd.
  - intros tm st g Hin Hc. apply (L1 tm st g); auto.
  - intros t Hin. apply filter_In in Hin. destruct Hin as [Hin Hne].
    apply other_id_spec in Hne.
    destruct (L2 t Hin) as (tm & Hi & Hc & Hdue).
    exists tm. split; [|auto]. apply Hkeep; [exact Hi|].
    rewrite Hc. simpl. congruence.
  - intros t Hin Hh. apply filter_In in Hin. destruct Hin as [Hin Hne].
    apply other_id_spec in Hne.
    destruct (L3 t Hin Hh) as (tm & Hi & Hc & Hdue).
    exists tm. split; [|split; [exact Hc|lia]]. apply Hkeep; [exact Hi|].
    rewrite Hc. simpl. congruence.
  - intros Ha. destruct (L6 Ha) as (tm & Hin & Hc & He & Hdue).
    exists tm. split; [|split; [exact Hc|split; [exact He|lia]]].
    apply Hkeep; [exact Hin|]. rewrite Hc. discriminate.
  - intros Ha. destruct (L7 Ha) as (tm & Hin & Hc & Hdue).
    exists tm. split; [|split; [exact Hc|lia]].
    apply Hkeep; [exact Hin|]. rewrite Hc. discriminate.
Qed.

Lemma Live_fire (h : Z) (o : Oracle) (s s' : State) :
  Inv s -> Live s -> fire h o s = Some s' -> Live s'.
Proof.
  intros HI HL Hf.
  destruct (fire_inv h o s s' Hf) as (tm0 & _ & H0 & _ & He & E). subst s'.
  assert (Hk := inv_timer s HI tm0 H0). unfold timer_ok in Hk.
  destruct (callback tm0) as [|st g|i g|i] eqn:Ec; cbn [runCallback].
  - destruct Hk as (_ & _ & p & Hp & _). apply Live_gameTick.
    apply (Live_fired_interval s tm0 p); assumption.
  - destruct Hk as (_ & Href & Hg & Hp & Hpos & _).
    destruct (reschedule_fields tm0 (set_now (due tm0) s))
      as (Ht & _ & _ & _ & Hn & _).
    destruct (reschedule_rest tm0 (set_now (due tm0) s)) as (_ & Hd & _).
    simpl in Ht, Hn, Hd.
    apply Live_spawnTick.
    + unfold round_settings. rewrite Hd.
      apply (live_settings s HL tm0 st g H0 Ec).
    + exact Hg.
    + apply (Live_fired_interval s tm0 (spawnInterval st)); assumption.
  - destruct Hk as (Hg & _). subst g.
    change (Live (removeHit i (reschedule tm0 (set_now (due tm0) s)))).
    apply Live_filtered; try assumption. rewrite Ec. reflexivity.
  - apply Live_filtered; try assumption. rewrite Ec. reflexivity.
Qed.

Lemma Live_quiet (s s' : State) :
  difficulty s' = difficulty s -> gameActive s' = gameActive s ->
  now s <= now s' -> timers s' = timers s -> targets s' = targets s ->
  Live s -> Live s'.
Proof.
  intros Hd Hg Hn Ht Hl. apply Live_frame; try assumption.
  - rewrite Ht. auto.
  - rewrite Ht. auto.
  - rewrite Hl. reflexivity.
  - rewrite Hl. intros t' Hin Hh. left. exists t'. auto.
Qed.

Lemma Live_step (e : Event) (s s' : State) :
  Inv s -> Live s -> step e s = Some s' -> Live s'.
Proof.
  intros HI HL. destruct e as [|d| |n|t|h o]; simpl.
  - destruct (gameActive s) eqn:Eg; [discriminate|].
    intros E. inversion E. apply Live_startGame; assumption.
  - destruct (gameActive s) eqn:Eg; [discriminate|].
    intros E. inversion E. apply Live_setDifficulty; assumption.
  - destruct (gameActive s); [|discriminate].
    intros E. inversion E. unfold handleArenaClick.
    destruct (r_gameActive (render s)); [|exact HL].
    revert HL. apply Live_quiet; simpl; auto; lia.
  - destruct (gameActive s); [|discriminate].
    destruct (nth_error (targets s) n) as [t|]; [|discriminate].
    intros E. inversion E. unfold onClickTarget.
    destruct (hit t); [exact HL|]. apply Live_hitTarget. exact HL.
  - destruct (Z.leb_spec (now s) t) as [Hn|Hn]; [|discriminate]. simpl.
    destruct (forallb (fun tm => t <=? due tm) (timers s)); [|discriminate].
    intros E. inversion E. revert HL. apply Live_quiet; simpl; auto.
  - apply Live_fire; assumption.
Qed.

Lemma Live_reachable (s : State) : reachable s -> Live s.
Proof.
  intros (t0 & es & H).
  apply (run_preserves Live Live_step es (initial t0)); auto.
  - apply Inv_initial.
  - apply Live_initial.
Qed.

(** X7.  In every reachable state a live target, hit or not, was made at
    the current clock or before and has its expiry pending, set for one
    target duration of the difficulty on display after the target was
    made: no target is live without a timer that will take it away. *)
Theorem live_target_expires (s : State) (t : Target) :
  reachable s -> In t (targets s) ->
  id t <= now s /\
  exists tm, In tm (timers s) /\ callback tm = Expire (id t) false /\
             every tm = None /\
             due tm = id t + targetDuration (round_settings s).
Proof.
  intros Hr Hin. assert (HI := Inv_reachable s Hr).
  assert (HL := Live_reachable s Hr).
  destruct (live_expiry s HL t Hin) as (tm & Htm & Hc & Hd).
  split; [apply (inv_ids s HI); exact Hin|]. exists tm.
  repeat split; auto. apply (timeout_closure s tm (id t) HI Htm).
  rewrite Hc. reflexivity.
Qed.

Lemma live_target_expires_witness :
  id (first_target late_hit) <= now (state_after late_hit) /\
  exists tm, In tm (timers (state_after late_hit)) /\
             callback tm = Expire (id (first_target late_hit)) false /\
             every tm = None /\
             due tm = id (first_target late_hit)
                      + targetDuration (round_settings (state_after late_hit)).
Proof.
  apply (live_target_expires (state_after late_hit) (first_target late_hit)).
  - exists 0, late_hit. vm_compute. reflexivity.
  - vm_compute. left. reflexivity.
Defined.



(** ** The round clock *)



Lemma other_callbacks (cb : Callback) (o : Oracle) (s : State) :
  cb <> GameTick ->
  gameActive (runCallback cb o s) = gameActive s /\
  timeLeft (runCallback cb o s) = timeLeft s /\
  now (runCallback cb o s) = now s /\
  forall tm, In tm (timers s) -> In tm (timers (runCallback cb o s)).
Proof.
  intros Hcb. destruct cb as [|st g|i g|i]; simpl.
  - congruence.
  - unfold spawnTick. destruct (arenaRect o) as [[w h]|]; simpl;
      repeat split; auto. intros tm Hin. apply in_app_iff. tauto.
  - unfold expire. destruct g; simpl; repeat split; auto.
  - repeat split; auto.
Qed.

Lemma Round_fire (e : Z) (h : Z) (o : Oracle) (s s' : State) :
  Inv s -> Round e s -> fire h o s = Some s' -> Round e s'.
Proof.
  intros HI HR Hf.
  destruct (fire_inv h o s s' Hf) as (tm0 & _ & H0 & _ & He & E).
  assert (Hnow := inv_due s HI tm0 H0).
  set (s1 := reschedule tm0 (set_now (due tm0) s)) in *.
  destruct (reschedule_fields tm0 (set_now (due tm0) s))
    as (_ & _ & _ & Hg & Hn & _).
  destruct (reschedule_rest tm0 (set_now (due tm0) s)) as (Hl & _).
  fold s1 in Hg, Hn, Hl. simpl in Hg, Hn, Hl.
  assert (Hk0 := inv_timer s HI tm0 H0). unfold timer_ok in Hk0.
  destruct HR as [(Ha & tm & Hin & Hc & Hev & Hd & Hend)|(Ha & Hle)].
  - assert (Hk := inv_timer s HI tm Hin). unfold timer_ok in Hk.
    rewrite Hc in Hk. destruct Hk as (_ & Href & _).
    destruct (callback tm0) as [|st g|i g|i] eqn:Ec.
    + destruct Hk0 as (_ & Href0 & _).
      assert (tm = tm0).
      { apply (same_handle_same_timer (timers s)); auto;
          [apply (inv_nodup s HI)|congruence]. }
      subst tm. subst s'. cbn [runCallback]. unfold gameTick. rewrite Hl.
      assert (Hclock := inv_clock s HI Ha).
      destruct (Z.leb_spec (timeLeft s) 1) as [Hle|Hgt].
      * right. destruct (endGame_fields s1)
          as (Eg & _ & _ & _ & _ & En & _).
        cbn [setTimeLeft gameActive now]. rewrite Eg, En, Hn.
        split; [reflexivity|]. assert (timeLeft s = 1) by lia. lia.
      * left. cbn [setTimeLeft gameActive now timeLeft timers].
        rewrite Hg, Hn, Hl. split; [exact Ha|].
        exists (mkTimer (handle tm0) (due tm0 + 1000) (Some 1000) GameTick).
        split.
        { rewrite <- Ec. apply rescheduled_self; assumption. }
        cbn [callback every due]. repeat split; lia.
    + left. destruct (other_callbacks (SpawnTick st g) o s1)
        as (Eg & El & En & Et); [discriminate|].
      subst s'. rewrite Eg, El, En, Hg, Hl, Hn. split; [exact Ha|].
      exists tm. split.
      { apply Et. apply rescheduled_in; auto. congruence. }
      repeat split; auto. lia.
    + left. destruct (other_callbacks (Expire i g) o s1)
        as (Eg & El & En & Et); [discriminate|].
      subst s'. rewrite Eg, El, En, Hg, Hl, Hn. split; [exact Ha|].
      exists tm. split.
      { apply Et. apply rescheduled_in; auto. congruence. }
      repeat split; auto. lia.
    + left. destruct (other_callbacks (RemoveHit i) o s1)
        as (Eg & El & En & Et); [discriminate|].
      subst s'. rewrite Eg, El, En, Hg, Hl, Hn. split; [exact Ha|].
      exists tm. split.
      { apply Et. apply rescheduled_in; auto. congruence. }
      repeat split; auto. lia.
  - right. destruct (callback tm0) as [|st g|i g|i] eqn:Ec.
    + destruct Hk0 as (Hact & _). congruence.
    + destruct Hk0 as (Hact & _). congruence.
    + destruct (other_callbacks (Expire i g) o s1)
        as (Eg & _ & En & _); [discriminate|].
      subst s'. rewrite Eg, En, Hg, Hn. split; [exact Ha|lia].
    + destruct (other_callbacks (RemoveHit i) o s1)
        as (Eg & _ & En & _); [discriminate|].
      subst s'. rewrite Eg, En, Hg, Hn. split; [exact Ha|lia].
Qed.

Lemma Round_step (e : Z) (ev : Event) (s s' : State) :
  Inv s -> Round e s -> is_start ev = false -> step ev s = Some s' ->
  Round e s'.
Proof.
  intros HI HR Hns. destruct ev as [|d| |n|t|h o]; simpl.
  - discriminate.
  - destruct (gameActive s) eqn:Eg; [discriminate|].
    intros E. inversion E. destruct HR as [(Ha & _)|(Ha & Hle)];
      [congruence|]. right. simpl. tauto.
  - destruct (gameActive s) eqn:Eg; [|discriminate].
    intros E. inversion E. unfold handleArenaClick, render. simpl.
    rewrite Eg. destruct HR as [(Ha & Htm)|(Ha & _)]; [|congruence].
    left. simpl. tauto.
  - destruct (gameActive s) eqn:Eg; [|discriminate].
    destruct (nth_error (targets s) n) as [t|]; [|discriminate].
    intros E. inversion E. unfold onClickTarget.
    destruct (hit t); [exact HR|].
    destruct HR as [(Ha & tm & Hin & Hrest)|(Ha & _)]; [|congruence].
    left. simpl. split; [exact Eg|]. exists tm. rewrite in_app_iff. tauto.
  - destruct (Z.leb_spec (now s) t) as [Hn|Hn]; [|discriminate]. simpl.
    destruct (forallb (fun tm => t <=? due tm) (timers s)); [|discriminate].
    intros E. inversion E.
    destruct HR as [(Ha & tm & Hin & Hc & Hev & Hd & Hend)|(Ha & Hle)].
    + left. simpl. split; [exact Ha|]. exists tm. repeat split; auto. lia.
    + right. simpl. split; [exact Ha|lia].
  - apply Round_fire; assumption.
Qed.

Lemma Round_run (e : Z) (es : list Event) (s s' : State) :
  Inv s -> Round e s -> no_start es = true -> run es s = Some s' ->
  Round e s'.
Proof.
  revert s. induction es as [|ev es IH]; simpl; intros s HI HR Hn Hrun.
  - inversion Hrun. subst. exact HR.
  - apply andb_prop in Hn. destruct Hn as [He Hn].
    apply negb_true_iff in He.
    destruct (step ev s) as [s1|] eqn:Es; [|discriminate].
    apply (IH s1); auto.
    + apply (Inv_step ev s); assumption.
    + apply (Round_step e ev s); assumption.
Qed.

Lemma Round_started (s s1 : State) :
  step ClickStart s = Some s1 -> Round (now s + 30000) s1.
Proof.
  simpl. destruct (gameActive s); [discriminate|].
  intros Hs. inversion Hs. left. split; [reflexivity|].
  exists (mkTimer (nextHandle s) (now s + 1000) (Some 1000) GameTick).
  simpl. repeat rewrite in_app_iff. simpl. repeat split; try tauto; lia.
Qed.

(** X11.  A round lasts at least 30000: after START GAME at clock [now s],
    as long as no new game is started, the round is active at every clock
    before [now s + 30000]. *)
Theorem round_lasts_at_least_thirty_seconds
    (s s1 : State) (es : list Event) (s2 : State) :
  reachable s -> step ClickStart s = Some s1 ->
  no_start es = true -> run es s1 = Some s2 ->
  now s2 < now s + 30000 -> gameActive s2 = true.
Proof.
  intros Hr Hs Hn Hrun Hlt. assert (HI := Inv_reachable s Hr).
  assert (HI1 := Inv_step _ s s1 HI Hs).
  assert (HR := Round_started s s1 Hs).
  destruct (Round_run _ es s1 s2 HI1 HR Hn Hrun) as [(Ha & _)|(Ha & Hle)].
  - exact Ha.
  - lia.
Qed.

Lemma round_lasts_at_least_thirty_seconds_witness :
  gameActive (state_after late_hit) = true.
Proof.
  apply (round_lasts_at_least_thirty_seconds (initial 0)
           (state_after [ClickStart]) (tl late_hit) (state_after late_hit)).
  - exists 0, []. reflexivity.
  - vm_compute. reflexivity.
  - vm_compute. reflexivity.
  - vm_compute. reflexivity.
  - vm_compute. reflexivity.
Defined.

(** X12.  The seconds on display never run ahead of the clock: after START
    GAME at clock [now s], as long as no new game is started and the round
    is active, 1000 times timeLeft is at least the time that remains until
    [now s + 30000] (the k-th tick never runs before [now s + 1000 * k]). *)
Theorem timeLeft_covers_remaining_time
    (s s1 : State) (es : list Event) (s2 : State) :
  reachable s -> step ClickStart s = Some s1 ->
  no_start es = true -> run es s1 = Some s2 ->
  gameActive s2 = true ->
  now s + 30000 - now s2 <= 1000 * timeLeft s2.
Proof.
  intros Hr Hs Hn Hrun Ha2. assert (HI := Inv_reachable s Hr).
  assert (HI1 := Inv_step _ s s1 HI Hs).
  assert (HR := Round_started s s1 Hs).
  destruct (Round_run _ es s1 s2 HI1 HR Hn Hrun)
    as [(Ha & tm & Hin & Hc & Hev & Hd & Hend)|(Ha & Hle)].
  - lia.
  - congruence.
Qed.

Lemma timeLeft_covers_remaining_time_witness :
  now (initial 0) + 30000 - now (state_after late_hit)
  <= 1000 * timeLeft (state_after late_hit).
Proof.
  apply (timeLeft_covers_remaining_time (initial 0)
           (state_after [ClickStart]) (tl late_hit) (state_after late_hit)).
  - exists 0, []. reflexivity.
  - vm_compute. reflexivity.
  - vm_compute. reflexivity.
  - vm_compute. reflexivity.
  - vm_compute. reflexivity.
Defined.
